(** * Masterblog API: a shallow embedding of [backend/backend_app.py]

    The service keeps one module-level list [POSTS] of post dictionaries and
    serves five Flask routes over it.  Every handler is embedded as a function
    of the request data and of the current value of [POSTS]; handlers that
    rebind or mutate [POSTS] return its new value next to the response.

    Conventions of the embedding:
    - a Python [int] is a [Z]; a Python [str] is a [string] of ASCII
      characters, compared by character code as Python compares code points;
      [str.lower] is embedded on the ASCII letters, and the properties of
      stored text and of queries are stated for strings that satisfy
      [is_ascii], on which [lower] and [str.lower] agree;
    - a decoded JSON value is a [json]; numbers are the integral ones;
    - the body of a POST or PUT request is a JSON object, the [dict] that
      [request.json] yields for it, embedded as a [gmap string json];
    - an exception that a handler does not catch is a [Raise] result, which
      Flask turns into a response with status 500. *)

From Stdlib Require Import ZArith Lia Ascii String DecimalString.
From stdpp Require Import base option list gmap strings sorting.

Local Open Scope Z_scope.
Set Warnings "-register-all".

(** ** JSON values and Python's view of them *)

Inductive json : Type :=
| JNull
| JBool (b : bool)
| JInt (z : Z)
| JStr (s : string)
| JList (l : list json)
| JObj (o : gmap string json).

(** Truth value testing, as [not data[field]] and [if sort_field] apply it:
    [None], [False], zero and the empty containers are false. *)
Definition truthy (v : json) : bool :=
  match v with
  | JNull => false
  | JBool b => b
  | JInt z => negb (z =? 0)
  | JStr s => negb (Nat.eqb (String.length s) 0)
  | JList l => negb (Nat.eqb (length l) 0)
  | JObj o => negb (Nat.eqb (size o) 0)
  end.

Definition str_truthy (s : string) : bool := negb (Nat.eqb (String.length s) 0).

(** ** Exceptions *)

Inductive exception : Type := AttributeError | KeyError.

Inductive result (A : Type) : Type :=
| Ok (a : A)
| Raise (e : exception).
Arguments Ok {A} a.
Arguments Raise {A} e.

Global Instance result_ret : MRet result := λ A a, Ok a.
Global Instance result_bind : MBind result := λ A B f m,
  match m with
  | Ok a => f a
  | Raise e => Raise e
  end.

(** ** Strings: [lower], [in], [<] and [str(int)] *)

Definition lower_char (c : ascii) : ascii :=
  let n := nat_of_ascii c in
  if (Nat.leb 65 n && Nat.leb n 90)%bool then ascii_of_nat (n + 32) else c.

Fixpoint lower (s : string) : string :=
  match s with
  | EmptyString => EmptyString
  | String c s' => String (lower_char c) (lower s')
  end.

(** The strings on which [lower] is [str.lower]: all characters below 128. *)
Fixpoint is_ascii (s : string) : bool :=
  match s with
  | EmptyString => true
  | String c s' => (Nat.ltb (nat_of_ascii c) 128 && is_ascii s')%bool
  end.

Fixpoint startswith (q s : string) : bool :=
  match q, s with
  | EmptyString, _ => true
  | String _ _, EmptyString => false
  | String a q', String b s' => (Ascii.eqb a b && startswith q' s')%bool
  end.

(** [q in s] on two strings: [q] occurs in [s] at some offset. *)
Fixpoint str_in (q s : string) : bool :=
  (startswith q s ||
   match s with
   | EmptyString => false
   | String _ s' => str_in q s'
   end)%bool.

(** [x in l] on a list of strings. *)
Definition list_in (x : string) (l : list string) : bool :=
  existsb (String.eqb x) l.

(** [str(n)] as an f-string interpolates it. *)
Definition py_str (n : Z) : string := NilZero.string_of_int (Z.to_int n).

(** [v.lower()]: only [str] has the method. *)
Definition py_lower (v : json) : result string :=
  match v with
  | JStr s => Ok (lower s)
  | _ => Raise AttributeError
  end.

(** ** [sorted(iterable, key=..., reverse=...)]

    The built-in computes the key of every element first, sorts stably
    using only [<] on the keys, and for [reverse=True] reverses the list
    before and after sorting so that stability is kept.  The stable sort is
    embedded as an insertion sort; the result of a stable sort does not
    depend on the algorithm (see [stable_sort_unique]). *)

Section sorted.
Context {A : Type}.

Fixpoint insert_by_key (x : string * A) (l : list (string * A)) : list (string * A) :=
  match l with
  | [] => [x]
  | y :: l' =>
      if String.ltb y.1 x.1 then y :: insert_by_key x l' else x :: y :: l'
  end.

Fixpoint stable_sort (l : list (string * A)) : list (string * A) :=
  match l with
  | [] => []
  | x :: l' => insert_by_key x (stable_sort l')
  end.

Definition sort_decorated (rev : bool) (l : list (string * A)) : list (string * A) :=
  if rev then reverse (stable_sort (reverse l)) else stable_sort l.

Definition sorted (l : list A) (key : A → result string) (reverse : bool) : result (list A) :=
  decorated ← mapM (λ x, k ← key x; mret (k, x)) l;
  mret (snd <$> sort_decorated reverse decorated).

(** The orders on decorated elements that the sort establishes. *)
Definition key_le (x y : string * A) : Prop := String.leb x.1 y.1 = true.
Definition key_ge (x y : string * A) : Prop := key_le y x.

(** An element paired with the key that a total key function gives it. *)
Definition decorate (g : A → string) (x : A) : string * A := (g x, x).
End sorted.

(** ** The data model *)

Record post : Type := Post { id : Z; title : json; content : json }.

(** [post[field]] on a post dictionary. *)
Definition post_get (p : post) (field : string) : result json :=
  if String.eqb field "id" then Ok (JInt (id p))
  else if String.eqb field "title" then Ok (title p)
  else if String.eqb field "content" then Ok (content p)
  else Raise KeyError.

Definition POSTS : list post :=
  [ Post 1 (JStr "First post") (JStr "This is the first post.");
    Post 2 (JStr "Second post") (JStr "This is the second post.") ].

(** What [jsonify] is given, and the status code returned with it. *)
Inductive payload : Type :=
| JsonPosts (posts : list post)
| JsonPost (p : post)
| JsonError (error : string)
| JsonMissing (error : string) (missing_fields : list string)
| JsonMessage (message : string).

Definition response : Type := payload * Z.

(** ** GET /api/posts *)

Definition valid_sort_fields : list string := ["title"; "content"].

(** The f-string interpolation of a list of strings: its [repr]. *)
Definition repr_list (l : list string) : string :=
  "[" +:+ String.concat ", " ((λ s, "'" +:+ s +:+ "'") <$> l) +:+ "]".

(** [lambda post: post[sort_field].lower()] *)
Definition sort_key (sort_field : string) (p : post) : result string :=
  v ← post_get p sort_field; py_lower v.

Definition get_posts (sort direction : option string) (POSTS : list post)
  : result response :=
  let sort_field := sort in
  let sort_direction := lower (default "asc" direction) in
  if match sort_field with
     | Some f => (str_truthy f && negb (list_in f valid_sort_fields))%bool
     | None => false
     end
  then
    Ok (JsonError ("Invalid sort field. Valid fields are: " +:+ repr_list valid_sort_fields), 400)
  else if negb (list_in sort_direction ["asc"; "desc"]) then
    Ok (JsonError "Invalid sort direction. Valid directions are: 'asc', 'desc'", 400)
  else
    sorted_posts ←
      match sort_field with
      | Some f =>
          if str_truthy f then
            let reverse := String.eqb sort_direction "desc" in
            sorted POSTS (sort_key f) reverse
          else Ok POSTS
      | None => Ok POSTS
      end;
    Ok (JsonPosts sorted_posts, 200).

(** ** GET /api/posts/search *)

(** [query in value.lower() if query else True] *)
Definition field_check (query : string) (value : json) : result bool :=
  if str_truthy query
  then s ← py_lower value; mret (str_in query s)
  else mret true.

(** One evaluation of the comprehension's condition: [and] evaluates its
    right operand only when the left one is true. *)
Definition search_cond (title_query content_query : string) (p : post) : result bool :=
  t ← field_check title_query (title p);
  if t : bool then field_check content_query (content p) else mret false.

Fixpoint comprehension {A : Type} (cond : A → result bool) (l : list A) : result (list A) :=
  match l with
  | [] => mret []
  | x :: l' =>
      b ← cond x;
      rest ← comprehension cond l';
      mret (if b : bool then x :: rest else rest)
  end.

Definition search_posts (title content : option string) (POSTS : list post)
  : result response :=
  let title_query := lower (default "" title) in
  let content_query := lower (default "" content) in
  matching_posts ← comprehension (search_cond title_query content_query) POSTS;
  Ok (JsonPosts matching_posts, 200).

(** ** POST /api/posts *)

Definition missing_fields (data : gmap string json) : list string :=
  List.filter
    (λ field, match data !! field with
              | None => true
              | Some v => negb (truthy v)
              end)
    ["title"; "content"].

(** [data[field]] on the request dictionary. *)
Definition dict_get (data : gmap string json) (field : string) : result json :=
  match data !! field with
  | Some v => Ok v
  | None => Raise KeyError
  end.

Definition add_post (data : gmap string json) (POSTS : list post)
  : result (response * list post) :=
  let missing := missing_fields data in
  if negb (Nat.eqb (length missing) 0) then
    Ok ((JsonMissing "Missing required fields" missing, 400), POSTS)
  else
    let new_id := match last POSTS with
                  | Some p => id p + 1
                  | None => 1
                  end in
    t ← dict_get data "title";
    c ← dict_get data "content";
    let new_post := Post new_id t c in
    Ok ((JsonPost new_post, 201), POSTS ++ [new_post]).

(** ** DELETE /api/posts/<int:post_id> *)

(** [next((post for post in POSTS if post['id'] == post_id), None)]: the
    first match, together with its position, which stands for the reference
    to the dictionary inside the list. *)
Definition next_post (post_id : Z) (POSTS : list post) : option (nat * post) :=
  list_find (λ p, id p = post_id) POSTS.

Definition delete_post (post_id : Z) (POSTS : list post) : response * list post :=
  match next_post post_id POSTS with
  | None =>
      ((JsonError ("Post with id " +:+ py_str post_id +:+ " not found."), 404), POSTS)
  | Some _ =>
      let POSTS' := filter (λ p, id p ≠ post_id) POSTS in
      ((JsonMessage ("Post with id " +:+ py_str post_id +:+ " has been deleted successfully."), 200),
       POSTS')
  end.

(** ** PUT /api/posts/<int:post_id> *)

Definition update_post (post_id : Z) (data : gmap string json) (POSTS : list post)
  : response * list post :=
  match next_post post_id POSTS with
  | None =>
      ((JsonError ("Post with id " +:+ py_str post_id +:+ " not found."), 404), POSTS)
  | Some (i, p) =>
      let p1 := Post (id p) (default (title p) (data !! "title")) (content p) in
      let p2 := Post (id p1) (title p1) (default (content p1) (data !! "content")) in
      ((JsonPost p2, 200), <[i := p2]> POSTS)
  end.

(** ** The service as a transition system *)

Inductive request : Type :=
| GET_posts (sort direction : option string)
| GET_search (title content : option string)
| POST_posts (data : gmap string json)
| DELETE_post (post_id : Z)
| PUT_post (post_id : Z) (data : gmap string json).

(** What Flask answers for an exception that escapes the handler. *)
Definition internal_error : response := (JsonError "Internal Server Error", 500).

Definition handle (r : request) (POSTS : list post) : response * list post :=
  match r with
  | GET_posts sort direction =>
      match get_posts sort direction POSTS with
      | Ok resp => (resp, POSTS)
      | Raise _ => (internal_error, POSTS)
      end
  | GET_search title content =>
      match search_posts title content POSTS with
      | Ok resp => (resp, POSTS)
      | Raise _ => (internal_error, POSTS)
      end
  | POST_posts data =>
      match add_post data POSTS with
      | Ok out => out
      | Raise _ => (internal_error, POSTS)
      end
  | DELETE_post post_id => delete_post post_id POSTS
  | PUT_post post_id data => update_post post_id data POSTS
  end.

(** The state after a sequence of requests. *)
Definition run (rs : list request) (s : list post) : list post :=
  foldl (λ s r, (handle r s).2) s rs.

(** ** Vocabulary of the specification *)

(** The ids grow strictly along the stored sequence. *)
Definition increasing_ids (s : list post) : Prop := StronglySorted Z.lt (id <$> s).

(** The string that a post holds in a field, when it holds one. *)
Definition str_field (f : string) (p : post) : option string :=
  match post_get p f with
  | Ok (JStr s) => Some s
  | _ => None
  end.

(** A post that holds an ASCII string in a field; a post whose title and
    content are both ASCII strings; a query that is absent or ASCII. *)
Definition ascii_str_field (f : string) (p : post) : Prop :=
  ∃ s, str_field f p = Some s ∧ is_ascii s = true.

Definition ascii_fields (p : post) : Prop :=
  ∃ t c, title p = JStr t ∧ content p = JStr c ∧
         is_ascii t = true ∧ is_ascii c = true.

Definition ascii_query (query : option string) : Prop :=
  match query with
  | None => True
  | Some q => is_ascii q = true
  end.

(** A post as the data model describes it: title and content are strings. *)
Definition string_fields (p : post) : Prop :=
  ∃ t c, title p = JStr t ∧ content p = JStr c.

(** Case-insensitive lexicographic order of two posts on a field, and the
    posts whose field has a given case-insensitive form. *)
Definition ci_le (f : string) (p q : post) : Prop :=
  ∃ a b, str_field f p = Some a ∧ str_field f q = Some b ∧
         String.leb (lower a) (lower b) = true.

Definition has_ci_key (f k : string) (p : post) : Prop :=
  lower <$> str_field f p = Some k.

Global Instance has_ci_key_dec (f k : string) (p : post) : Decision (has_ci_key f k p).
Proof. unfold has_ci_key. apply _. Defined.

(** [s] contains [q], case-insensitively. *)
Definition contains_ci (q s : string) : Prop :=
  ∃ l r, lower s = l +:+ lower q +:+ r.

Definition field_contains (query : option string) (v : json) : Prop :=
  match query with
  | None => True
  | Some q => ∃ s, v = JStr s ∧ contains_ci q s
  end.

Definition search_match (title_query content_query : option string) (p : post) : Prop :=
  field_contains title_query (title p) ∧ field_contains content_query (content p).

(** [selected P l out]: [out] is exactly the subsequence of the elements of
    [l] that satisfy [P]. *)
Inductive selected {A : Type} (P : A → Prop) : list A → list A → Prop :=
| selected_nil : selected P [] []
| selected_keep x l out : P x → selected P l out → selected P (x :: l) (x :: out)
| selected_skip x l out : ¬ P x → selected P l out → selected P (x :: l) out.

(** A required field that the body lacks or gives a false value. *)
Definition field_missing (data : gmap string json) (f : string) : Prop :=
  data !! f = None ∨ ∃ v, data !! f = Some v ∧ truthy v = false.

(** A post that create could have stored: neither field is false. *)
Definition truthy_fields (p : post) : Prop :=
  truthy (title p) = true ∧ truthy (content p) = true.

Definition is_update (r : request) : bool :=
  match r with
  | PUT_post _ _ => true
  | _ => false
  end.

(** * Properties *)

(** ** Strings *)

Lemma str_truthy_false (s : string) : str_truthy s = false ↔ s = "".
Proof. by destruct s. Qed.

Lemma startswith_spec (q s : string) :
  startswith q s = true ↔ ∃ r, s = q +:+ r.
Proof.
  revert s. induction q as [|a q IH]; intros s; simpl.
  - split; [intros _; by exists s | done].
  - destruct s as [|b s]; simpl.
    + split; [done | intros [r Hr]; discriminate].
    + rewrite andb_true_iff, Ascii.eqb_eq, IH. split.
      * intros [-> [r ->]]. by exists r.
      * intros [r Hr]. injection Hr as -> ->. eauto.
Qed.

Lemma str_in_spec (q s : string) :
  str_in q s = true ↔ ∃ l r, s = l +:+ q +:+ r.
Proof.
  induction s as [|b s IH]; simpl; rewrite orb_true_iff, startswith_spec.
  - split.
    + intros [[r Hr]|?]; [|done]. by exists "", r.
    + intros [l [r Hr]]. left. destruct l; [by exists r | discriminate].
  - rewrite IH. split.
    + intros [[r Hr]|[l [r Hr]]]; [by exists "", r |].
      exists (String b l), r. simpl. by rewrite Hr.
    + intros [[|c l] [r Hr]]; [left; by exists r |].
      right. injection Hr as -> ->. eauto.
Qed.

(** Lower-casing keeps a string within ASCII. *)
Lemma lower_is_ascii (s : string) : is_ascii s = true → is_ascii (lower s) = true.
Proof.
  induction s as [|c s IH]; simpl; [done |].
  rewrite !andb_true_iff, !Nat.ltb_lt. intros [Hc Hs]. split; [|auto].
  unfold lower_char.
  destruct (Nat.leb 65 (nat_of_ascii c) && Nat.leb (nat_of_ascii c) 90)%bool eqn:E; [|done].
  apply andb_true_iff in E as [_ E%Nat.leb_le].
  rewrite nat_ascii_embedding; lia.
Qed.

(** The order of [String.leb] is the one that [<] of [String.ltb] leaves
    when it fails the other way round; it is total and transitive. *)
Lemma ltb_false_leb (a b : string) : String.ltb b a = false → String.leb a b = true.
Proof.
  unfold String.ltb, String.leb. rewrite (String.compare_antisym b a).
  by destruct (String.compare a b).
Qed.

Lemma ltb_true_leb (a b : string) : String.ltb a b = true → String.leb a b = true.
Proof. unfold String.ltb, String.leb. by destruct (String.compare a b). Qed.

Lemma compare_refl (a : string) : String.compare a a = Eq.
Proof.
  induction a as [|x a IH]; simpl; [done |].
  unfold Ascii.compare. by rewrite N.compare_refl.
Qed.

Lemma ltb_true_neq (a b : string) : String.ltb a b = true → a ≠ b.
Proof. unfold String.ltb. intros H ->. by rewrite compare_refl in H. Qed.

Lemma compare_not_Gt_trans (a b c : string) :
  String.compare a b ≠ Gt → String.compare b c ≠ Gt → String.compare a c ≠ Gt.
Proof.
  revert b c. induction a as [|x a IH]; intros [|y b] [|z c]; simpl; try congruence.
  unfold Ascii.compare.
  destruct (N.compare_spec (N_of_ascii x) (N_of_ascii y)) as [E1|L1|G1];
    destruct (N.compare_spec (N_of_ascii y) (N_of_ascii z)) as [E2|L2|G2];
    destruct (N.compare_spec (N_of_ascii x) (N_of_ascii z)) as [E3|L3|G3];
    try congruence; try lia.
  apply IH.
Qed.

Lemma leb_trans (a b c : string) :
  String.leb a b = true → String.leb b c = true → String.leb a c = true.
Proof.
  unfold String.leb. intros Hab Hbc.
  pose proof (compare_not_Gt_trans a b c) as H.
  destruct (String.compare a b), (String.compare b c), (String.compare a c);
    try done; exfalso; apply H; congruence.
Qed.

(** ** The result monad *)

Lemma mapM_Ok {A B : Type} (f : A → result B) (g : A → B) (l : list A) :
  Forall (λ x, f x = Ok (g x)) l → mapM f l = Ok (g <$> l).
Proof.
  induction 1 as [|x l Hx _ IH]; [done |].
  simpl. rewrite Hx. simpl. by rewrite IH.
Qed.

Lemma mapM_Raise {A B : Type} (f : A → result B) (l : list A) (e : exception) :
  Exists (λ x, f x = Raise e) l → (∀ x e', f x = Raise e' → e' = e) →
  mapM f l = Raise e.
Proof.
  intros Hex Hone. induction Hex as [x l Hx|x l _ IH]; simpl.
  - by rewrite Hx.
  - destruct (f x) as [y|e'] eqn:Hfx; simpl.
    + by rewrite IH.
    + f_equal. eauto.
Qed.

(** ** The stable sort *)

Section sorted_facts.
Context {A : Type}.
Implicit Types (x y : string * A) (l : list (string * A)) (rev : bool).

Lemma insert_by_key_perm x l : insert_by_key x l ≡ₚ x :: l.
Proof.
  induction l as [|y l IH]; simpl; [done |].
  destruct (String.ltb y.1 x.1); [|done].
  rewrite IH. apply Permutation_swap.
Qed.

Lemma stable_sort_perm l : stable_sort l ≡ₚ l.
Proof.
  induction l as [|x l IH]; simpl; [done |].
  by rewrite insert_by_key_perm, IH.
Qed.

Lemma insert_by_key_sorted x l :
  StronglySorted key_le l → StronglySorted key_le (insert_by_key x l).
Proof.
  induction l as [|y l IH]; simpl; intros Hs.
  - repeat constructor.
  - apply StronglySorted_inv in Hs as [Hl Hy].
    destruct (String.ltb y.1 x.1) eqn:Hlt.
    + constructor; [by apply IH |].
      rewrite insert_by_key_perm. constructor; [|done].
      by apply ltb_true_leb.
    + apply ltb_false_leb in Hlt.
      constructor; [by constructor |].
      constructor; [done |].
      eapply Forall_impl; [exact Hy |].
      intros z Hz. unfold key_le in *. eapply leb_trans; eauto.
Qed.

Lemma stable_sort_sorted l : StronglySorted key_le (stable_sort l).
Proof.
  induction l as [|x l IH]; simpl; [constructor |].
  by apply insert_by_key_sorted.
Qed.

(** Stability: the elements of any one key come out in the order in
    which they went in. *)
Lemma insert_by_key_filter (k : string) x l :
  filter (λ y, y.1 = k) (insert_by_key x l) = filter (λ y, y.1 = k) (x :: l).
Proof.
  induction l as [|y l IH]; simpl; [done |].
  destruct (String.ltb y.1 x.1) eqn:Hlt; [|done].
  apply ltb_true_neq in Hlt.
  rewrite filter_cons, IH, !filter_cons.
  repeat case_decide; congruence.
Qed.

Lemma stable_sort_filter (k : string) l :
  filter (λ y, y.1 = k) (stable_sort l) = filter (λ y, y.1 = k) l.
Proof.
  induction l as [|x l IH]; simpl; [done |].
  by rewrite insert_by_key_filter, !filter_cons, IH.
Qed.

Lemma StronglySorted_reverse (R : relation (string * A)) l :
  StronglySorted R l → StronglySorted (flip R) (reverse l).
Proof.
  induction 1 as [|x l _ IH Hx]; [constructor |].
  rewrite reverse_cons. apply StronglySorted_app_2; [|done|repeat constructor].
  intros y z Hy Hz. apply list_elem_of_singleton in Hz as ->.
  rewrite elem_of_reverse in Hy. rewrite Forall_forall in Hx. unfold flip. by apply Hx.
Qed.

Lemma sort_decorated_perm rev l : sort_decorated rev l ≡ₚ l.
Proof.
  destruct rev; simpl; [|apply stable_sort_perm].
  by rewrite reverse_Permutation, stable_sort_perm, reverse_Permutation.
Qed.

Lemma sort_decorated_sorted rev l :
  StronglySorted (if rev then key_ge else key_le) (sort_decorated rev l).
Proof.
  destruct rev; simpl; [|apply stable_sort_sorted].
  apply (StronglySorted_reverse key_le), stable_sort_sorted.
Qed.

Lemma sort_decorated_filter (k : string) rev l :
  filter (λ y, y.1 = k) (sort_decorated rev l) = filter (λ y, y.1 = k) l.
Proof.
  destruct rev; simpl; [|apply stable_sort_filter].
  by rewrite filter_reverse, stable_sort_filter, filter_reverse, reverse_involutive.
Qed.
End sorted_facts.

(** A list that is ordered by key and keeps, for every key, the elements of
    that key in their original order is the output of [stable_sort]: the
    embedding of the sort does not depend on the algorithm chosen. *)
Section stable_sort_unique.
Context {A : Type}.
Implicit Types (x y : string * A) (l : list (string * A)).

Lemma sorted_filter_eq l1 l2 :
  StronglySorted key_le l1 → StronglySorted key_le l2 →
  (∀ k, filter (λ y, y.1 = k) l1 = filter (λ y, y.1 = k) l2) → l1 = l2.
Proof.
  intros Hs1. revert l2.
  induction Hs1 as [|x l1 _ IH Hx]; intros l2 Hs2 Hf.
  - destruct l2 as [|y l2]; [done |].
    specialize (Hf y.1). rewrite filter_cons_True in Hf by done. discriminate.
  - destruct Hs2 as [|y l2 Hs2 Hy].
    { specialize (Hf x.1). rewrite filter_cons_True in Hf by done. discriminate. }
    assert (x = y) as <-.
    { destruct (decide (y.1 = x.1)) as [Heq|Hne].
      - specialize (Hf x.1). rewrite !filter_cons_True in Hf by done. congruence.
      - exfalso. apply Hne. apply String.leb_antisym.
        + pose proof (Hf x.1) as Hfx. rewrite !filter_cons in Hfx.
          repeat case_decide; try congruence.
          assert (x ∈ filter (λ z, z.1 = x.1) l2) as Hin by (rewrite <- Hfx; left).
          apply list_elem_of_filter in Hin as [_ Hin].
          rewrite Forall_forall in Hy. by apply Hy.
        + pose proof (Hf y.1) as Hfy. rewrite !filter_cons in Hfy.
          repeat case_decide; try congruence.
          assert (y ∈ filter (λ z, z.1 = y.1) l1) as Hin by (rewrite Hfy; left).
          apply list_elem_of_filter in Hin as [_ Hin].
          rewrite Forall_forall in Hx. by apply Hx. }
    f_equal. apply IH; [done |].
    intros k. specialize (Hf k). rewrite !filter_cons in Hf.
    case_decide; congruence.
Qed.

Lemma stable_sort_unique l l' :
  StronglySorted key_le l' →
  (∀ k, filter (λ y, y.1 = k) l' = filter (λ y, y.1 = k) l) →
  l' = stable_sort l.
Proof.
  intros Hs Hf. apply sorted_filter_eq; [done | apply stable_sort_sorted |].
  intros k. by rewrite stable_sort_filter.
Qed.
End stable_sort_unique.

(** ** [sorted] on keys that do not raise *)

Section sorted_by.
Context {A : Type} (key : A → result string) (g : A → string).
Implicit Types (l : list A) (rev : bool).

Lemma sorted_Ok l rev :
  Forall (λ x, key x = Ok (g x)) l →
  sorted l key rev = Ok (snd <$> sort_decorated rev (decorate g <$> l)).
Proof.
  intros Hk. unfold sorted.
  rewrite (mapM_Ok _ (decorate g)); [done |].
  eapply Forall_impl; [exact Hk |]. intros x Hx. simpl. by rewrite Hx.
Qed.

Lemma sorted_Raise l rev e :
  Exists (λ x, key x = Raise e) l → (∀ x e', key x = Raise e' → e' = e) →
  sorted l key rev = Raise e.
Proof.
  intros Hex Hone. unfold sorted.
  rewrite (mapM_Raise _ _ e); [done | |].
  - eapply Exists_impl; [exact Hex |]. intros x Hx. simpl. by rewrite Hx.
  - intros x e'. simpl. destruct (key x) eqn:Hx; simpl; [done |].
    intros [= <-]. eauto.
Qed.

Lemma decorated_keys rev l :
  Forall (λ y, y.1 = g y.2) (sort_decorated rev (decorate g <$> l)).
Proof.
  rewrite sort_decorated_perm. apply Forall_fmap, Forall_true. done.
Qed.

Lemma undecorate_perm rev l : snd <$> sort_decorated rev (decorate g <$> l) ≡ₚ l.
Proof.
  rewrite sort_decorated_perm, <- list_fmap_compose.
  by rewrite list_fmap_id.
Qed.

Lemma undecorate_sorted (R : relation string) (dl : list (string * A)) :
  Forall (λ y, y.1 = g y.2) dl →
  StronglySorted (λ x y, R x.1 y.1) dl →
  StronglySorted (λ p q, R (g p) (g q)) (snd <$> dl).
Proof.
  intros Hk Hs. induction Hs as [|y dl _ IH Hy]; [constructor |].
  apply Forall_cons in Hk as [Hy1 Hk]. simpl.
  constructor; [by apply IH |].
  apply Forall_fmap. rewrite Forall_forall in Hy, Hk.
  apply Forall_forall. intros z Hz. simpl.
  rewrite <- Hy1, <- (Hk z Hz). by apply Hy.
Qed.

Lemma undecorate_filter (k : string) (dl : list (string * A)) :
  Forall (λ y, y.1 = g y.2) dl →
  snd <$> filter (λ y, y.1 = k) dl = filter (λ p, g p = k) (snd <$> dl).
Proof.
  induction 1 as [|y dl Hy _ IH]; [done |].
  rewrite fmap_cons, !filter_cons, <- IH.
  repeat case_decide; try done; congruence.
Qed.

Lemma undecorate_stable (k : string) rev l :
  filter (λ p, g p = k) (snd <$> sort_decorated rev (decorate g <$> l))
  = filter (λ p, g p = k) l.
Proof.
  rewrite <- undecorate_filter by apply decorated_keys.
  rewrite sort_decorated_filter.
  rewrite undecorate_filter by (apply Forall_fmap, Forall_true; done).
  by rewrite <- list_fmap_compose, list_fmap_id.
Qed.
End sorted_by.

(** ** Lists *)

Lemma list_in_spec (x : string) (l : list string) : list_in x l = true ↔ x ∈ l.
Proof.
  unfold list_in. induction l as [|y l IH]; simpl.
  - rewrite elem_of_nil. split; [discriminate | done].
  - rewrite orb_true_iff, elem_of_cons, IH, String.eqb_eq. done.
Qed.

Lemma list_in_false (x : string) (l : list string) : list_in x l = false ↔ x ∉ l.
Proof.
  rewrite <- list_in_spec. destruct (list_in x l); split; congruence.
Qed.

Lemma StronglySorted_fmap_Forall {A B : Type} (f : A → B) (P : A → Prop)
    (R1 : relation A) (R2 : relation B) (l : list A) :
  Forall P l →
  (∀ x y, P x → P y → R1 x y → R2 (f x) (f y)) →
  StronglySorted R1 l → StronglySorted R2 (f <$> l).
Proof.
  intros HP HR Hs. induction Hs as [|x l _ IH Hx]; [constructor |].
  apply Forall_cons in HP as [Px HP]. simpl.
  constructor; [by apply IH |].
  apply Forall_fmap. rewrite Forall_forall in Hx, HP.
  apply Forall_forall. intros z Hz. simpl. apply HR; auto.
Qed.

Lemma filter_ext_Forall {A : Type} (P1 P2 : A → Prop)
    `{!∀ x, Decision (P1 x)} `{!∀ x, Decision (P2 x)} (l : list A) :
  Forall (λ x, P1 x ↔ P2 x) l → filter P1 l = filter P2 l.
Proof.
  induction 1 as [|x l Hx _ IH]; [done |].
  rewrite !filter_cons, IH. repeat case_decide; tauto.
Qed.

(** ** GET /api/posts *)

Lemma sort_key_str (f : string) (p : post) (s : string) :
  str_field f p = Some s → sort_key f p = Ok (lower s).
Proof.
  unfold str_field, sort_key. destruct (post_get p f) as [[]|]; simpl; congruence.
Qed.

Lemma sort_key_Raise (f : string) (p : post) :
  f ∈ valid_sort_fields → str_field f p = None → sort_key f p = Raise AttributeError.
Proof.
  unfold valid_sort_fields. rewrite !elem_of_cons, elem_of_nil.
  intros [->|[->|[]]]; unfold str_field, sort_key, post_get; simpl;
    by destruct p as [i [] []].
Qed.

Lemma valid_sort_field_checks (f : string) :
  f ∈ valid_sort_fields → str_truthy f = true ∧ list_in f valid_sort_fields = true.
Proof.
  intros Hf. split; [|by apply list_in_spec].
  unfold valid_sort_fields in Hf. rewrite !elem_of_cons, elem_of_nil in Hf.
  by destruct Hf as [->|[->|[]]].
Qed.

(** What the handler does once both parameters have passed validation. *)
Lemma get_posts_valid (f : string) (direction : option string) (POSTS : list post) :
  f ∈ valid_sort_fields →
  lower (default "asc" direction) ∈ ["asc"; "desc"] →
  get_posts (Some f) direction POSTS =
    (sorted_posts ← sorted POSTS (sort_key f)
                       (String.eqb (lower (default "asc" direction)) "desc");
     Ok (JsonPosts sorted_posts, 200)).
Proof.
  intros [Ht Hin]%valid_sort_field_checks Hd%list_in_spec.
  unfold get_posts. by rewrite Ht, Hin, Hd.
Qed.

Lemma get_posts_unsorted (sort direction : option string) (POSTS : list post) :
  sort = None ∨ sort = Some "" →
  lower (default "asc" direction) ∈ ["asc"; "desc"] →
  get_posts sort direction POSTS = Ok (JsonPosts POSTS, 200).
Proof.
  intros Hs Hd%list_in_spec. unfold get_posts.
  destruct Hs as [->| ->]; by rewrite Hd.
Qed.

(** The condition on the collection cannot be dropped: one post whose field
    is not a string makes the sort raise. *)
Lemma get_posts_non_string (f : string) (direction : option string) (POSTS : list post) :
  f ∈ valid_sort_fields →
  lower (default "asc" direction) ∈ ["asc"; "desc"] →
  Exists (λ p, str_field f p = None) POSTS →
  get_posts (Some f) direction POSTS = Raise AttributeError.
Proof.
  intros Hf Hd Hex. rewrite get_posts_valid by done.
  rewrite (sorted_Raise _ _ _ AttributeError); [done | |].
  - eapply Exists_impl; [exact Hex |]. intros p Hp. by apply sort_key_Raise.
  - intros p e. unfold valid_sort_fields in Hf.
    rewrite !elem_of_cons, elem_of_nil in Hf.
    destruct Hf as [->|[->|[]]]; unfold sort_key, post_get; simpl;
      destruct p as [i [] []]; simpl; congruence.
Qed.

(** X16.  For every collection in which every post holds an ASCII string
    in the requested field, every sort field among title and content and
    every direction that is asc or desc up to case (asc when absent),
    list-with-sort answers 200 with a list that is a permutation of the
    stored posts, of the same length, ordered by case-insensitive
    lexicographic comparison on the field (the comparison reversed for
    desc), in which posts of equal key keep their storage order; without a
    sort parameter it answers 200 with the collection in storage order. *)
Theorem get_posts_sorted (POSTS : list post) (f : string) (direction : option string) :
  f ∈ valid_sort_fields →
  lower (default "asc" direction) ∈ ["asc"; "desc"] →
  Forall (ascii_str_field f) POSTS →
  ∃ out,
    get_posts (Some f) direction POSTS = Ok (JsonPosts out, 200) ∧
    out ≡ₚ POSTS ∧
    length out = length POSTS ∧
    StronglySorted
      (if decide (lower (default "asc" direction) = "desc")
       then flip (ci_le f) else ci_le f) out ∧
    (∀ k, filter (has_ci_key f k) out = filter (has_ci_key f k) POSTS) ∧
    get_posts None direction POSTS = Ok (JsonPosts POSTS, 200).
Proof.
  intros Hf Hd Hascii.
  assert (Forall (λ p, is_Some (str_field f p)) POSTS) as Hty.
  { eapply Forall_impl; [exact Hascii |]. intros p (s & Hs & _). by exists s. }
  set (g := λ p, lower (default "" (str_field f p))).
  set (rev := String.eqb (lower (default "asc" direction)) "desc").
  set (dl := sort_decorated rev (decorate g <$> POSTS)).
  assert (Forall (λ p, sort_key f p = Ok (g p)) POSTS) as Hk.
  { eapply Forall_impl; [exact Hty |]. intros p [s Hs].
    unfold g. rewrite Hs. by apply sort_key_str. }
  assert (Forall (λ y, y.1 = g y.2 ∧ is_Some (str_field f y.2)) dl) as Hdl.
  { unfold dl. rewrite sort_decorated_perm. apply Forall_fmap.
    eapply Forall_impl; [exact Hty |]. by intros p Hp. }
  assert (Forall (λ p, g p = g p ∧ is_Some (str_field f p)) (snd <$> dl)) as Hout.
  { apply Forall_fmap. eapply Forall_impl; [exact Hdl |]. by intros y [_ Hy]. }
  pose proof (undecorate_perm g rev POSTS) as Hperm. fold dl in Hperm.
  assert (∀ k p, is_Some (str_field f p) → g p = k ↔ has_ci_key f k p) as Hkey.
  { intros k p [s Hs]. unfold g, has_ci_key. rewrite Hs. simpl.
    split; [by intros -> | by intros [= ->]]. }
  exists (snd <$> dl). split_and!.
  - rewrite get_posts_valid by done. fold rev.
    by rewrite (sorted_Ok _ g) by done.
  - done.
  - by rewrite Hperm.
  - pose proof (sort_decorated_sorted rev (decorate g <$> POSTS)) as Hs. fold dl in Hs.
    eapply StronglySorted_fmap_Forall; [exact Hdl | | exact Hs].
    intros x y [Hx [a Ha]] [Hy [b Hb]] Hxy.
    assert (∀ u v c e, u.1 = g u.2 → v.1 = g v.2 →
              str_field f u.2 = Some c → str_field f v.2 = Some e →
              key_le u v → ci_le f u.2 v.2) as Hle.
    { intros u v c e Hu Hv Hc He. unfold key_le, ci_le.
      rewrite Hu, Hv. unfold g. rewrite Hc, He. simpl. eauto. }
    unfold rev in Hxy.
    destruct (String.eqb_spec (lower (default "asc" direction)) "desc") as [E|E].
    + rewrite decide_True by done. unfold flip, key_ge in *. eauto.
    + rewrite decide_False by done. eauto.
  - intros k.
    rewrite (filter_ext_Forall (has_ci_key f k) (λ p, g p = k) (snd <$> dl)).
    2:{ eapply Forall_impl; [exact Hout |]. intros p [_ Hp]. symmetry. by apply Hkey. }
    rewrite (filter_ext_Forall (has_ci_key f k) (λ p, g p = k) POSTS).
    2:{ eapply Forall_impl; [exact Hty |]. intros p Hp. symmetry. by apply Hkey. }
    apply undecorate_stable.
  - by apply get_posts_unsorted; [left |].
Qed.

Lemma get_posts_sorted_witness :
  ∃ out,
    get_posts (Some "title") (Some "desc") POSTS = Ok (JsonPosts out, 200) ∧
    out ≡ₚ POSTS ∧
    length out = length POSTS ∧
    StronglySorted (flip (ci_le "title")) out ∧
    (∀ k, filter (has_ci_key "title" k) out = filter (has_ci_key "title" k) POSTS) ∧
    get_posts None (Some "desc") POSTS = Ok (JsonPosts POSTS, 200).
Proof.
  apply (get_posts_sorted POSTS "title" (Some "desc")).
  - unfold valid_sort_fields. apply elem_of_cons. by left.
  - apply elem_of_cons. right. apply elem_of_cons. by left.
  - unfold POSTS.
    repeat (apply Forall_cons_2; [eexists; split; reflexivity |]).
    apply Forall_nil_2.
Defined.

(** C3 (failing input).  From the initial posts, create accepts a body
    whose title is the number 5 and stores it; in the state so reached,
    list-with-sort by title with direction asc, both valid, raises
    AttributeError, which Flask answers with status 500, where the
    docstring of the handler promises the sorted posts with status 200. *)
Lemma get_posts_sort_raises :
  let body : gmap string json := {[ "title" := JInt 5; "content" := JStr "c" ]} in
  let s := run [POST_posts body] POSTS in
  s = POSTS ++ [Post 3 (JInt 5) (JStr "c")] ∧
  get_posts (Some "title") (Some "asc") s = Raise AttributeError ∧
  ¬ ∃ out, get_posts (Some "title") (Some "asc") s = Ok (JsonPosts out, 200).
Proof.
  split_and!; [by vm_compute | by vm_compute |].
  intros [out Hout]. vm_compute in Hout. discriminate.
Qed.

(** C4 (amended).  List-with-sort answers 400 with an error body whenever
    the sort value is a non-empty string outside title and content, the
    body then enumerating the valid fields, and whenever the direction,
    lower-cased, is neither asc nor desc; sort=id is such a sort value. *)
Theorem get_posts_invalid_parameter
    (sort direction : option string) (POSTS : list post) :
  (∃ f, sort = Some f ∧ f ≠ "" ∧ f ∉ valid_sort_fields) ∨
  lower (default "asc" direction) ∉ ["asc"; "desc"] →
  ∃ msg,
    get_posts sort direction POSTS = Ok (JsonError msg, 400) ∧
    ((∃ f, sort = Some f ∧ f ≠ "" ∧ f ∉ valid_sort_fields) →
     msg = "Invalid sort field. Valid fields are: ['title', 'content']") ∧
    (sort = Some "id" →
     msg = "Invalid sort field. Valid fields are: ['title', 'content']") ∧
    (sort = None ∨ sort = Some "" ∨ (∃ f, sort = Some f ∧ f ∈ valid_sort_fields) →
     msg = "Invalid sort direction. Valid directions are: 'asc', 'desc'").
Proof.
  intros Hbad.
  assert ((∃ f, sort = Some f ∧ f ≠ "" ∧ f ∉ valid_sort_fields) ∨
          ¬ (∃ f, sort = Some f ∧ f ≠ "" ∧ f ∉ valid_sort_fields)) as Hdec.
  { destruct sort as [f|]; [|right; by intros (f & ? & _)].
    destruct (decide (f = "")) as [->|Hne];
      [right; by intros (f' & [= <-] & ? & _) |].
    destruct (decide (f ∈ valid_sort_fields));
      [right; by intros (f' & [= <-] & _ & ?) | left; eauto]. }
  destruct Hdec as [(f & -> & Hne & Hnv)|Hok].
  - exists "Invalid sort field. Valid fields are: ['title', 'content']".
    split_and!; try done.
    + unfold get_posts.
      rewrite (proj2 (list_in_false _ _) Hnv).
      destruct (str_truthy f) eqn:Ht; [done |].
      by apply str_truthy_false in Ht.
    + intros [?|[?|(f' & ? & Hin)]]; by simplify_eq.
  - destruct Hbad as [?|Hd]; [done |].
    exists "Invalid sort direction. Valid directions are: 'asc', 'desc'".
    apply list_in_false in Hd.
    split_and!; try done.
    + unfold get_posts. rewrite Hd.
      destruct sort as [f|]; [|done].
      destruct (str_truthy f) eqn:Ht; [|done].
      destruct (list_in f valid_sort_fields) eqn:Hin; [done |].
      exfalso. apply Hok. exists f. split_and!; [done | |by apply list_in_false].
      by intros ->.
    + intros ->. exfalso. apply Hok. exists "id". split_and!; [done..|].
      apply list_in_false. by vm_compute.
Qed.

Lemma get_posts_invalid_parameter_witness :
  ∃ msg,
    get_posts (Some "id") None POSTS = Ok (JsonError msg, 400) ∧
    msg = "Invalid sort field. Valid fields are: ['title', 'content']".
Proof.
  destruct (get_posts_invalid_parameter (Some "id") None POSTS) as (msg & H & _ & Hid & _).
  - left. exists "id". split_and!; [done..|].
    apply list_in_false. by vm_compute.
  - exists msg. split; [exact H | by apply Hid].
Defined.

(** C4 (counterexample).  The empty string is a supplied sort value outside
    title and content, and ASC is a supplied direction outside asc and
    desc; both requests are answered 200. *)
Lemma get_posts_accepts_outside_values :
  ("" ∉ valid_sort_fields) ∧
  get_posts (Some "") None POSTS = Ok (JsonPosts POSTS, 200) ∧
  ("ASC" ∉ ["asc"; "desc"]) ∧
  get_posts None (Some "ASC") POSTS = Ok (JsonPosts POSTS, 200).
Proof.
  split_and!; try (apply list_in_false); by vm_compute.
Qed.

(** C10.  A sort parameter given with the empty string is handled as an
    absent one: with an admissible direction the answer is 200 with the
    collection in storage order, although the empty string is not one of
    title and content. *)
Theorem get_posts_empty_sort (direction : option string) (POSTS : list post) :
  lower (default "asc" direction) ∈ ["asc"; "desc"] →
  ("" ∉ valid_sort_fields) ∧
  get_posts (Some "") direction POSTS = Ok (JsonPosts POSTS, 200) ∧
  get_posts (Some "") direction POSTS = get_posts None direction POSTS.
Proof.
  intros Hd. split_and!.
  - apply list_in_false. by vm_compute.
  - apply get_posts_unsorted; auto.
  - rewrite !get_posts_unsorted; auto.
Qed.

Lemma get_posts_empty_sort_witness :
  ("" ∉ valid_sort_fields) ∧
  get_posts (Some "") (Some "desc") POSTS = Ok (JsonPosts POSTS, 200) ∧
  get_posts (Some "") (Some "desc") POSTS = get_posts None (Some "desc") POSTS.
Proof.
  apply (get_posts_empty_sort (Some "desc") POSTS).
  apply list_in_spec. by vm_compute.
Defined.

(** ** Selection of a subsequence *)

Section selected_facts.
Context {A : Type} (P : A → Prop).
Implicit Types (l out : list A).

Lemma selected_unique l out1 out2 :
  selected P l out1 → selected P l out2 → out1 = out2.
Proof.
  intros H1. revert out2.
  induction H1 as [|x l out Px _ IH|x l out Px _ IH]; intros out2 H2;
    inversion H2; subst; try done; f_equal; auto.
Qed.

Lemma selected_sublist l out : selected P l out → out `sublist_of` l.
Proof. induction 1; by constructor. Qed.

Lemma selected_elem_of l out x : selected P l out → x ∈ out ↔ x ∈ l ∧ P x.
Proof.
  induction 1 as [|y l out Py _ IH|y l out Py _ IH];
    rewrite ?elem_of_cons, ?elem_of_nil; [tauto | |]; rewrite ?IH.
  - split; [intros [->| []]; auto | tauto].
  - split; [tauto | intros [[->|?] ?]; tauto].
Qed.

Lemma selected_all l out : selected P l out → Forall P l → out = l.
Proof.
  induction 1 as [|y l out Py _ IH|y l out Py _ IH]; intros HP; [done | |];
    apply Forall_cons in HP as [? ?]; [f_equal; auto | done].
Qed.

Lemma selected_none l out : selected P l out → Forall (λ x, ¬ P x) l → out = [].
Proof.
  induction 1 as [|y l out Py _ IH|y l out Py _ IH]; intros HP; [done | |];
    apply Forall_cons in HP as [? ?]; [done | auto].
Qed.

Lemma comprehension_selected (cond : A → result bool) l :
  Forall (λ x, ∃ b, cond x = Ok b ∧ (b = true ↔ P x)) l →
  ∃ out, comprehension cond l = Ok out ∧ selected P l out.
Proof.
  induction 1 as [|x l (b & Hb & HP) _ (out & Hout & Hsel)]; simpl.
  - exists []. split; [done | constructor].
  - rewrite Hb. simpl. rewrite Hout. simpl. destruct b.
    + exists (x :: out). split; [done |]. constructor; [tauto | done].
    + exists out. split; [done |]. constructor; [|done].
      intros HPx. apply HP in HPx. discriminate.
Qed.
End selected_facts.

Lemma comprehension_Raise {A : Type} (cond : A → result bool) (l : list A) (e : exception) :
  Exists (λ x, cond x = Raise e) l → (∀ x e', cond x = Raise e' → e' = e) →
  comprehension cond l = Raise e.
Proof.
  intros Hex Hone. induction Hex as [x l Hx|x l _ IH]; simpl.
  - by rewrite Hx.
  - destruct (cond x) as [b|e'] eqn:Hc; simpl.
    + by rewrite IH.
    + f_equal. eauto.
Qed.

(** ** GET /api/posts/search *)

Lemma lower_length (s : string) : String.length (lower s) = String.length s.
Proof. induction s; simpl; congruence. Qed.

Lemma str_truthy_lower (s : string) : str_truthy (lower s) = str_truthy s.
Proof. unfold str_truthy. by rewrite lower_length. Qed.

Lemma py_lower_Raise (v : json) (e : exception) :
  py_lower v = Raise e → e = AttributeError.
Proof. destruct v; simpl; congruence. Qed.

Lemma field_check_Raise (query : string) (v : json) (e : exception) :
  field_check query v = Raise e → e = AttributeError.
Proof.
  unfold field_check. destruct (str_truthy query); [|done].
  destruct (py_lower v) as [s|e'] eqn:E; simpl; [done |].
  intros [= <-]. by eapply py_lower_Raise.
Qed.

(** The test that the handler makes on one field agrees with the
    specification's containment when the field is a string. *)
Lemma field_check_contains (query : option string) (s : string) :
  ∃ b, field_check (lower (default "" query)) (JStr s) = Ok b ∧
       (b = true ↔ field_contains query (JStr s)).
Proof.
  unfold field_check. destruct query as [q|]; simpl; [|by exists true].
  destruct (str_truthy (lower q)) eqn:Hq; simpl.
  - eexists. split; [reflexivity |].
    rewrite str_in_spec. unfold contains_ci. split.
    + intros Hin. by exists s.
    + by intros (s' & [= <-] & Hin).
  - exists true. split; [done |].
    apply str_truthy_false in Hq. split; [intros _ | done].
    exists s. split; [done |]. exists "", (lower s). by rewrite Hq.
Qed.

Lemma search_cond_spec (title_arg content_arg : option string) (p : post) :
  string_fields p →
  ∃ b, search_cond (lower (default "" title_arg)) (lower (default "" content_arg)) p = Ok b
       ∧ (b = true ↔ search_match title_arg content_arg p).
Proof.
  intros (t & c & Ht & Hc). unfold search_cond, search_match. rewrite Ht, Hc.
  destruct (field_check_contains title_arg t) as (bt & -> & Htitle).
  destruct (field_check_contains content_arg c) as (bc & Hbc & Hcontent).
  simpl. destruct bt.
  - exists bc. split; [done |]. tauto.
  - exists false. split; [done |]. split; [done |].
    intros [Hm _]. by apply Htitle in Hm.
Qed.

(** The condition on the collection cannot be dropped: with a non-empty
    title query, one post whose title is not a string makes the search
    raise. *)
Lemma search_posts_non_string_title
    (q : string) (content_arg : option string) (POSTS : list post) :
  q ≠ "" →
  Exists (λ p, ∀ s, title p ≠ JStr s) POSTS →
  search_posts (Some q) content_arg POSTS = Raise AttributeError.
Proof.
  intros Hq Hex. unfold search_posts.
  rewrite (comprehension_Raise _ _ AttributeError); [done | |].
  - eapply Exists_impl; [exact Hex |]. intros p Hp.
    unfold search_cond, field_check. simpl. rewrite (str_truthy_lower q).
    destruct (str_truthy q) eqn:Ht; [|by apply str_truthy_false in Ht].
    destruct (title p) as [|b|z|s|l|o] eqn:Etitle; simpl; try done.
    by destruct (Hp s).
  - intros p e. unfold search_cond.
    destruct (field_check _ (title p)) as [[]|e'] eqn:E; simpl.
    + apply field_check_Raise.
    + done.
    + intros [= <-]. by eapply field_check_Raise.
Qed.

(** X17.  For every collection whose posts hold ASCII strings as title and
    content and every pair of optional ASCII query substrings, search answers
    200 with exactly the subsequence of the posts whose title contains the
    title query and whose content contains the content query, each
    case-insensitively and only if given; without query parameters that is
    the whole collection, and without a matching post the empty list. *)
Theorem search_posts_selects
    (title_arg content_arg : option string) (POSTS : list post) :
  Forall ascii_fields POSTS →
  ascii_query title_arg → ascii_query content_arg →
  ∃ out,
    search_posts title_arg content_arg POSTS = Ok (JsonPosts out, 200) ∧
    selected (search_match title_arg content_arg) POSTS out ∧
    out `sublist_of` POSTS ∧
    (∀ p, p ∈ out ↔ p ∈ POSTS ∧ search_match title_arg content_arg p) ∧
    (title_arg = None → content_arg = None → out = POSTS) ∧
    ((∀ p, p ∈ POSTS → ¬ search_match title_arg content_arg p) → out = []).
Proof.
  intros Hascii _ _.
  assert (Forall string_fields POSTS) as Hty.
  { eapply Forall_impl; [exact Hascii |]. intros p (t & c & Ht & Hc & _). by exists t, c. }
  destruct (comprehension_selected (search_match title_arg content_arg)
              (search_cond (lower (default "" title_arg)) (lower (default "" content_arg)))
              POSTS) as (out & Hout & Hsel).
  { eapply Forall_impl; [exact Hty |]. intros p Hp. by apply search_cond_spec. }
  exists out. split_and!.
  - unfold search_posts. by rewrite Hout.
  - done.
  - by eapply selected_sublist.
  - intros p. by eapply selected_elem_of.
  - intros -> ->. eapply selected_all; [done |].
    by apply Forall_true.
  - intros Hnone. eapply selected_none; [done |]. by apply Forall_forall.
Qed.

Lemma search_posts_selects_witness :
  ∃ out,
    search_posts (Some "FIRST") None POSTS = Ok (JsonPosts out, 200) ∧
    selected (search_match (Some "FIRST") None) POSTS out.
Proof.
  destruct (search_posts_selects (Some "FIRST") None POSTS) as (out & H1 & H2 & _).
  - unfold POSTS.
    repeat (apply Forall_cons_2; [do 2 eexists; repeat split; reflexivity |]).
    apply Forall_nil_2.
  - reflexivity.
  - exact I.
  - by exists out.
Defined.

(** C6 (failing input).  From the initial posts, create accepts a body
    whose title is the number 5 and stores it; in the state so reached, a
    search with the title query post raises AttributeError, which Flask
    answers with status 500, where the docstring of the handler promises
    all matching posts with status 200. *)
Lemma search_posts_raises :
  let body : gmap string json := {[ "title" := JInt 5; "content" := JStr "c" ]} in
  let s := run [POST_posts body] POSTS in
  s = POSTS ++ [Post 3 (JInt 5) (JStr "c")] ∧
  search_posts (Some "post") None s = Raise AttributeError ∧
  ¬ ∃ out, search_posts (Some "post") None s = Ok (JsonPosts out, 200).
Proof.
  split_and!; [by vm_compute | by vm_compute |].
  intros [out Hout]. vm_compute in Hout. discriminate.
Qed.

(** ** POST /api/posts *)

Lemma field_missing_check (data : gmap string json) (f : string) :
  match data !! f with
  | None => true
  | Some v => negb (truthy v)
  end = true ↔ field_missing data f.
Proof.
  unfold field_missing. destruct (data !! f) as [v|].
  - rewrite negb_true_iff. split; [eauto |].
    by intros [?|(v' & [= <-] & ?)].
  - split; [by left | done].
Qed.

Lemma missing_fields_selected (data : gmap string json) :
  selected (field_missing data) ["title"; "content"] (missing_fields data).
Proof.
  unfold missing_fields. simpl.
  pose proof (field_missing_check data "title") as Ht.
  pose proof (field_missing_check data "content") as Hc.
  destruct (match data !! "title" with None => true | Some v => negb (truthy v) end);
    destruct (match data !! "content" with None => true | Some v => negb (truthy v) end);
    repeat (first [apply selected_nil
                  | apply selected_keep; [tauto |]
                  | apply selected_skip; [intros ?%Ht || intros ?%Hc; discriminate |]]).
Qed.

Lemma missing_fields_nil (data : gmap string json) :
  missing_fields data = [] ↔
  ∃ t c, data !! "title" = Some t ∧ data !! "content" = Some c ∧
         truthy t = true ∧ truthy c = true.
Proof.
  unfold missing_fields. simpl.
  destruct (data !! "title") as [t|]; [destruct (truthy t) eqn:Ht |];
    (destruct (data !! "content") as [c|]; [destruct (truthy c) eqn:Hc |]);
    simpl; split; try discriminate; try (intros (?&?&?&?&?&?); congruence).
  intros _. by exists t, c.
Qed.

Lemma add_post_rejects (data : gmap string json) (POSTS : list post) :
  missing_fields data ≠ [] →
  add_post data POSTS =
    Ok ((JsonMissing "Missing required fields" (missing_fields data), 400), POSTS).
Proof. unfold add_post. by destruct (missing_fields data). Qed.

Lemma add_post_accepts (data : gmap string json) (POSTS : list post) (t c : json) :
  data !! "title" = Some t → data !! "content" = Some c →
  truthy t = true → truthy c = true →
  add_post data POSTS =
    let new_post := Post (match last POSTS with Some p => id p + 1 | None => 1 end) t c in
    Ok ((JsonPost new_post, 201), POSTS ++ [new_post]).
Proof.
  intros Ht Hc Htt Hct. unfold add_post, dict_get.
  rewrite (proj2 (missing_fields_nil data)) by eauto 10.
  by rewrite Ht, Hc.
Qed.

(** C1.  A create whose body carries a title and a content that pass
    validation answers 201 with the new record and appends it at the end;
    the record carries the given title and content, and its id is 1 on the
    empty collection and otherwise the id of the last stored post plus 1.
    From the initial posts 1 and 2: a create yields id 3, deleting 1 is
    answered 200, and the next create yields id 4; after both initial
    posts are deleted a create yields id 1. *)
Theorem add_post_assigns_next_id :
  (∀ (data : gmap string json) (POSTS : list post) (t c : json),
     data !! "title" = Some t → data !! "content" = Some c →
     truthy t = true → truthy c = true →
     ∃ p, add_post data POSTS = Ok ((JsonPost p, 201), POSTS ++ [p]) ∧
          title p = t ∧ content p = c ∧
          (POSTS = [] → id p = 1) ∧
          (∀ l q, POSTS = l ++ [q] → id p = id q + 1)) ∧
  (let b1 : gmap string json := {[ "title" := JStr "T"; "content" := JStr "C" ]} in
   let b2 : gmap string json := {[ "title" := JStr "X"; "content" := JStr "Y" ]} in
   let s1 := run [POST_posts b1] POSTS in
   let s2 := run [POST_posts b1; DELETE_post 1] POSTS in
   id <$> POSTS = [1; 2] ∧
   (handle (POST_posts b1) POSTS).1 = (JsonPost (Post 3 (JStr "T") (JStr "C")), 201) ∧
   (handle (DELETE_post 1) s1).1 =
     (JsonMessage "Post with id 1 has been deleted successfully.", 200) ∧
   (handle (POST_posts b2) s2).1 = (JsonPost (Post 4 (JStr "X") (JStr "Y")), 201) ∧
   id <$> run [POST_posts b1; DELETE_post 1; POST_posts b2] POSTS = [2; 3; 4] ∧
   run [DELETE_post 1; DELETE_post 2] POSTS = [] ∧
   handle (POST_posts b1) (run [DELETE_post 1; DELETE_post 2] POSTS) =
     ((JsonPost (Post 1 (JStr "T") (JStr "C")), 201), [Post 1 (JStr "T") (JStr "C")])).
Proof.
  split.
  - intros data POSTS t c Ht Hc Htt Hct.
    rewrite (add_post_accepts data POSTS t c) by done. simpl.
    eexists. split; [reflexivity |]. split_and!; try done.
    + by intros ->.
    + intros l q ->. by rewrite last_snoc.
  - by vm_compute.
Qed.

Lemma add_post_assigns_next_id_witness :
  ∃ p, add_post {[ "title" := JStr "T"; "content" := JStr "C" ]} POSTS
       = Ok ((JsonPost p, 201), POSTS ++ [p]) ∧ id p = 3.
Proof.
  destruct add_post_assigns_next_id as [Hgen _].
  destruct (Hgen {[ "title" := JStr "T"; "content" := JStr "C" ]} POSTS (JStr "T") (JStr "C"))
    as (p & Hp & _ & _ & _ & Hid); [by vm_compute..|].
  exists p. split; [exact Hp |].
  apply (Hid [Post 1 (JStr "First post") (JStr "This is the first post.")]
             (Post 2 (JStr "Second post") (JStr "This is the second post."))).
  reflexivity.
Defined.

(** C5 (amended).  Create answers 400 with the missing-fields error if and
    only if at least one of title and content is absent from the body or
    has a false value there (the empty string, null, false, zero, an empty
    array or object); the error lists exactly those fields, title before
    content, together, and the collection is unchanged.  A string value is
    false exactly when it is empty. *)
Theorem add_post_missing_fields (data : gmap string json) (POSTS : list post) :
  ∃ fields,
    selected (field_missing data) ["title"; "content"] fields ∧
    (fields ≠ [] ↔ field_missing data "title" ∨ field_missing data "content") ∧
    (fields ≠ [] →
     add_post data POSTS = Ok ((JsonMissing "Missing required fields" fields, 400), POSTS)) ∧
    (fields = [] → ∃ p, add_post data POSTS = Ok ((JsonPost p, 201), POSTS ++ [p])) ∧
    (field_missing data "title" → ¬ field_missing data "content" → fields = ["title"]) ∧
    (field_missing data "title" → field_missing data "content" →
     fields = ["title"; "content"]) ∧
    (∀ f s, data !! f = Some (JStr s) → field_missing data f ↔ s = "").
Proof.
  pose proof (missing_fields_selected data) as Hsel.
  exists (missing_fields data). split_and!.
  - done.
  - split.
    + intros Hne. destruct (missing_fields data) as [|f fields] eqn:E; [done |].
      assert (f ∈ f :: fields) as Hf by left.
      eapply selected_elem_of in Hf as [Hin Hf]; [|exact Hsel].
      rewrite !elem_of_cons, elem_of_nil in Hin.
      destruct Hin as [->|[->|[]]]; auto.
    + intros Hm Hnil.
      assert (∀ f, f ∈ ["title"; "content"] → field_missing data f → False) as Hno.
      { intros f Hin Hf.
        assert (f ∈ missing_fields data) as Hmem by (eapply selected_elem_of; eauto).
        rewrite Hnil in Hmem. by apply elem_of_nil in Hmem. }
      destruct Hm as [Hm|Hm]; (eapply Hno; [|exact Hm]);
        rewrite !elem_of_cons; auto.
  - apply add_post_rejects.
  - intros (t & c & Ht & Hc & Htt & Hct)%missing_fields_nil.
    rewrite (add_post_accepts data POSTS t c) by done. simpl. eauto.
  - intros Ht Hc. eapply selected_unique; [exact Hsel |].
    apply selected_keep; [done |]. apply selected_skip; [done |]. constructor.
  - intros Ht Hc. eapply selected_unique; [exact Hsel |].
    repeat (apply selected_keep; [done |]). constructor.
  - intros f s Hf. unfold field_missing. rewrite Hf. split.
    + intros [?|(v & [= <-] & Hv)]; [done |]. by apply str_truthy_false.
    + intros ->. right. by exists (JStr "").
Qed.

Lemma add_post_missing_fields_witness :
  add_post {[ "title" := JStr ""; "content" := JStr "C" ]} POSTS
  = Ok ((JsonMissing "Missing required fields" ["title"], 400), POSTS).
Proof.
  destruct (add_post_missing_fields {[ "title" := JStr ""; "content" := JStr "C" ]} POSTS)
    as (fields & _ & _ & Hrej & _ & Hone & _).
  assert (fields = ["title"]) as ->.
  { apply Hone.
    - right. exists (JStr ""). by vm_compute.
    - intros [H|(v & H & Hv)]; [by vm_compute in H |].
      vm_compute in H. injection H as <-. by vm_compute in Hv. }
  by apply Hrej.
Defined.

(** C5 (counterexample).  A body whose title is the number 0 carries a
    title that is neither absent nor the empty string, and a non-empty
    content; create answers 400 and reports title as missing. *)
Lemma add_post_rejects_zero_title :
  let body : gmap string json := {[ "title" := JInt 0; "content" := JStr "c" ]} in
  body !! "title" = Some (JInt 0) ∧
  JInt 0 ≠ JStr "" ∧
  body !! "content" = Some (JStr "c") ∧
  add_post body POSTS = Ok ((JsonMissing "Missing required fields" ["title"], 400), POSTS).
Proof. split_and!; by vm_compute. Qed.

(** ** Looking a post up by id *)

Lemma next_post_None (post_id : Z) (POSTS : list post) :
  next_post post_id POSTS = None ↔ ∀ p, p ∈ POSTS → id p ≠ post_id.
Proof. unfold next_post. by rewrite list_find_None, Forall_forall. Qed.

(** The first match splits the list around itself. *)
Lemma next_post_Some (post_id : Z) (POSTS : list post) (i : nat) (p : post) :
  next_post post_id POSTS = Some (i, p) →
  ∃ l1 l2, POSTS = l1 ++ p :: l2 ∧ length l1 = i ∧ id p = post_id ∧
           ∀ q, q ∈ l1 → id q ≠ post_id.
Proof.
  unfold next_post. intros (Hi & Hp & Hfirst)%list_find_Some.
  exists (take i POSTS), (drop (S i) POSTS).
  assert (i < length POSTS)%nat as Hlt by (by eapply lookup_lt_Some).
  split_and!.
  - by rewrite take_drop_middle.
  - rewrite length_take. lia.
  - done.
  - intros q (j & Hj)%list_elem_of_lookup_1.
    pose proof (lookup_lt_Some _ _ _ Hj) as Hjlt.
    rewrite length_take in Hjlt.
    rewrite lookup_take_lt in Hj by lia. apply (Hfirst j q Hj). lia.
Qed.

(** ** Increasing ids *)

Lemma StronglySorted_lt_NoDup (l : list Z) : StronglySorted Z.lt l → NoDup l.
Proof.
  induction 1 as [|x l _ IH Hx]; constructor; [|done].
  intros Hin. rewrite Forall_forall in Hx. specialize (Hx x Hin). lia.
Qed.

Lemma StronglySorted_filter_fmap {A B : Type} (f : A → B) (R : relation B)
    (P : A → Prop) `{!∀ x, Decision (P x)} (l : list A) :
  StronglySorted R (f <$> l) → StronglySorted R (f <$> filter P l).
Proof.
  induction l as [|x l IH]; [done |].
  rewrite fmap_cons, filter_cons. intros [Hl Hx]%StronglySorted_inv.
  case_decide; [|auto]. rewrite fmap_cons. constructor; [auto |].
  rewrite Forall_forall in Hx. apply Forall_forall.
  intros y (z & -> & [_ Hz]%list_elem_of_filter)%list_elem_of_fmap.
  by apply Hx, list_elem_of_fmap_2.
Qed.

Lemma increasing_ids_last (s : list post) (q : post) :
  increasing_ids s → last s = Some q → ∀ p, p ∈ s → id p ≤ id q.
Proof.
  unfold increasing_ids. intros Hs (l & ->)%last_Some p Hp.
  rewrite fmap_app in Hs. apply elem_of_app in Hp as [Hp|Hp].
  - apply Z.lt_le_incl.
    eapply (StronglySorted_app_1_elem_of Z.lt); [exact Hs | | by left].
    by apply list_elem_of_fmap_2.
  - apply list_elem_of_singleton in Hp as ->. lia.
Qed.

Lemma increasing_ids_snoc (s : list post) (t c : json) :
  increasing_ids s →
  increasing_ids (s ++ [Post (match last s with Some p => id p + 1 | None => 1 end) t c]).
Proof.
  intros Hs. unfold increasing_ids. rewrite fmap_app.
  apply StronglySorted_app_2; [|done|repeat constructor].
  intros x y (p & -> & Hp)%list_elem_of_fmap Hy.
  apply list_elem_of_singleton in Hy as ->. simpl.
  destruct (last s) as [q|] eqn:Hlast.
  - pose proof (increasing_ids_last s q Hs Hlast p Hp). lia.
  - apply last_None in Hlast as ->. by apply elem_of_nil in Hp.
Qed.

Lemma add_post_cases (data : gmap string json) (POSTS : list post) :
  add_post data POSTS =
    Ok ((JsonMissing "Missing required fields" (missing_fields data), 400), POSTS) ∨
  ∃ t c,
    add_post data POSTS =
      Ok ((JsonPost (Post (match last POSTS with Some p => id p + 1 | None => 1 end) t c), 201),
          POSTS ++ [Post (match last POSTS with Some p => id p + 1 | None => 1 end) t c]).
Proof.
  destruct (missing_fields data) as [|f fields] eqn:E.
  - right. apply missing_fields_nil in E as (t & c & Ht & Hc & Htt & Hct).
    exists t, c. by rewrite (add_post_accepts data POSTS t c).
  - left. rewrite add_post_rejects; [by rewrite E | by rewrite E].
Qed.

Lemma update_post_ids (post_id : Z) (data : gmap string json) (s : list post) :
  id <$> (update_post post_id data s).2 = id <$> s.
Proof.
  unfold update_post. destruct (next_post post_id s) as [[i p]|] eqn:E; [|done].
  simpl. rewrite list_fmap_insert. simpl. apply list_insert_id.
  apply list_find_Some in E as [Hi _]. by rewrite list_lookup_fmap, Hi.
Qed.

Lemma handle_increasing_ids (r : request) (s : list post) :
  increasing_ids s → increasing_ids (handle r s).2.
Proof.
  intros Hs. destruct r as [sort dir|tq cq|data|post_id|post_id data]; simpl.
  - by destruct (get_posts sort dir s).
  - by destruct (search_posts tq cq s).
  - destruct (add_post_cases data s) as [->|(t & c & ->)]; [done |].
    by apply increasing_ids_snoc.
  - unfold delete_post. destruct (next_post post_id s); [|done].
    by apply StronglySorted_filter_fmap.
  - unfold increasing_ids. by rewrite update_post_ids.
Qed.

Lemma run_snoc (rs : list request) (r : request) (s : list post) :
  run (rs ++ [r]) s = (handle r (run rs s)).2.
Proof. unfold run. by rewrite foldl_snoc. Qed.

Lemma run_increasing_ids (rs : list request) : increasing_ids (run rs POSTS).
Proof.
  induction rs as [|r rs IH] using rev_ind.
  - unfold increasing_ids. simpl. repeat constructor; lia.
  - rewrite run_snoc. by apply handle_increasing_ids.
Qed.

(** C2.  After every sequence of requests (list-with-sort, search, create,
    delete, update) run from the two initial posts, no two stored posts
    have the same id. *)
Theorem ids_unique (rs : list request) : NoDup (id <$> run rs POSTS).
Proof. apply StronglySorted_lt_NoDup, run_increasing_ids. Qed.

(** C9.  After every sequence of requests run from the two initial posts,
    the ids are strictly increasing along the stored sequence; the last
    post holds the largest id, the id that a create would assign exceeds
    every stored id, and the state after a create has no duplicate id. *)
Theorem ids_strictly_increasing (rs : list request) :
  let s := run rs POSTS in
  StronglySorted Z.lt (id <$> s) ∧
  match last s with
  | Some q => Forall (λ p, id p ≤ id q) s
  | None => s = []
  end ∧
  Forall (λ p, id p < match last s with Some q => id q + 1 | None => 1 end) s ∧
  ∀ data, NoDup (id <$> (handle (POST_posts data) s).2).
Proof.
  pose proof (run_increasing_ids rs) as Hs. simpl. split_and!.
  - done.
  - destruct (last (run rs POSTS)) as [q|] eqn:Hlast; [|by apply last_None].
    apply Forall_forall. by apply increasing_ids_last.
  - apply Forall_forall. intros p Hp.
    destruct (last (run rs POSTS)) as [q|] eqn:Hlast.
    + pose proof (increasing_ids_last _ q Hs Hlast p Hp). lia.
    + apply last_None in Hlast. rewrite Hlast in Hp. by apply elem_of_nil in Hp.
  - intros data. apply StronglySorted_lt_NoDup.
    by apply (handle_increasing_ids (POST_posts data)).
Qed.

(** ** DELETE /api/posts/<int:post_id> *)

Lemma filter_Forall_id {A : Type} (P : A → Prop) `{!∀ x, Decision (P x)} (l : list A) :
  Forall P l → filter P l = l.
Proof.
  induction 1 as [|x l Hx _ IH]; [done |].
  by rewrite filter_cons_True, IH.
Qed.

Lemma delete_post_cases (post_id : Z) (s : list post) :
  NoDup (id <$> s) →
  ((∀ p, p ∈ s → id p ≠ post_id) ∧
   delete_post post_id s =
     ((JsonError ("Post with id " +:+ py_str post_id +:+ " not found."), 404), s)) ∨
  (∃ l1 p l2,
     s = l1 ++ p :: l2 ∧ id p = post_id ∧
     (∀ q, q ∈ l1 ++ l2 → id q ≠ post_id) ∧
     delete_post post_id s =
       ((JsonMessage ("Post with id " +:+ py_str post_id +:+ " has been deleted successfully."),
         200), l1 ++ l2)).
Proof.
  intros Hnd. unfold delete_post.
  destruct (next_post post_id s) as [[i p]|] eqn:E.
  - right. apply next_post_Some in E as (l1 & l2 & -> & _ & Hp & Hl1).
    assert (∀ q, q ∈ l2 → id q ≠ post_id) as Hl2.
    { intros q Hq Heq. rewrite fmap_app, fmap_cons in Hnd.
      apply NoDup_app in Hnd as (_ & _ & Hnd). apply NoDup_cons in Hnd as [Hnd _].
      apply Hnd. rewrite Hp, <- Heq. by apply list_elem_of_fmap_2. }
    exists l1, p, l2. split_and!; [done.. | |].
    + intros q [?|?]%elem_of_app; auto.
    + rewrite filter_app, filter_cons_False by (intros ?; done).
      by rewrite !filter_Forall_id by (by apply Forall_forall).
  - left. split; [by apply next_post_None | done].
Qed.

(** C7.  In every state of the service, a delete either finds no post with
    the given id, answers 404 with the id in the message and leaves the
    collection as it is; or the collection splits around the one post with
    that id, the delete answers 200 with a confirmation and the collection
    becomes the posts before and after it, in their order.  Deleting 9999
    from the initial posts is answered by a message naming 9999. *)
Theorem delete_post_removes_one (rs : list request) (post_id : Z) :
  let s := run rs POSTS in
  (((∀ p, p ∈ s → id p ≠ post_id) ∧
    delete_post post_id s =
      ((JsonError ("Post with id " +:+ py_str post_id +:+ " not found."), 404), s)) ∨
   (∃ l1 p l2,
      s = l1 ++ p :: l2 ∧ id p = post_id ∧
      (∀ q, q ∈ l1 ++ l2 → id q ≠ post_id) ∧
      delete_post post_id s =
        ((JsonMessage ("Post with id " +:+ py_str post_id +:+ " has been deleted successfully."),
          200), l1 ++ l2))) ∧
  delete_post 9999 POSTS = ((JsonError "Post with id 9999 not found.", 404), POSTS).
Proof.
  simpl. split; [|by vm_compute].
  apply delete_post_cases, StronglySorted_lt_NoDup, run_increasing_ids.
Qed.

(** ** PUT /api/posts/<int:post_id> *)

(** C8.  An update either finds no post with the given id, answers 404 and
    leaves the collection as it is; or it answers 200 with the updated
    record, which takes the place of the first post with that id while
    every other post stays as it is: the record keeps the id, takes each
    of title and content from the body when the body supplies it, and
    keeps the previous value of a field that the body does not supply. *)
Theorem update_post_replaces_supplied
    (post_id : Z) (data : gmap string json) (POSTS : list post) :
  ((∀ p, p ∈ POSTS → id p ≠ post_id) ∧
   update_post post_id data POSTS =
     ((JsonError ("Post with id " +:+ py_str post_id +:+ " not found."), 404), POSTS)) ∨
  (∃ l1 p l2 p',
     POSTS = l1 ++ p :: l2 ∧ id p = post_id ∧
     (∀ q, q ∈ l1 → id q ≠ post_id) ∧
     update_post post_id data POSTS = ((JsonPost p', 200), l1 ++ p' :: l2) ∧
     id p' = id p ∧
     match data !! "title" with
     | Some v => title p' = v
     | None => title p' = title p
     end ∧
     match data !! "content" with
     | Some v => content p' = v
     | None => content p' = content p
     end).
Proof.
  unfold update_post.
  destruct (next_post post_id POSTS) as [[i p]|] eqn:E.
  - right. apply next_post_Some in E as (l1 & l2 & -> & <- & Hp & Hl1).
    exists l1, p, l2. eexists. split_and!; [done.. | | | |].
    + f_equal. rewrite <- (Nat.add_0_r (length l1)). by rewrite insert_app_r.
    + done.
    + simpl. by destruct (data !! "title").
    + simpl. by destruct (data !! "content").
  - left. split; [by apply next_post_None | done].
Qed.

Example update_post_title_only :
  update_post 1 {[ "title" := JStr "T" ]} POSTS =
    ((JsonPost (Post 1 (JStr "T") (JStr "This is the first post.")), 200),
     [ Post 1 (JStr "T") (JStr "This is the first post.");
       Post 2 (JStr "Second post") (JStr "This is the second post.") ]).
Proof. by vm_compute. Qed.

Example update_post_unknown_id :
  update_post 9999 {[ "title" := JStr "T" ]} POSTS =
    ((JsonError "Post with id 9999 not found.", 404), POSTS).
Proof. by vm_compute. Qed.

(** * Further properties of the handlers *)

(** ** When list-with-sort raises *)

Lemma mapM_Raise_inv {A B : Type} (f : A → result B) (l : list A) (e : exception) :
  mapM f l = Raise e → Exists (λ x, f x = Raise e) l.
Proof.
  induction l as [|x l IH]; simpl; [done |].
  destruct (f x) as [y|e'] eqn:Hfx; simpl.
  - destruct (mapM f l) as [k|e''] eqn:Hl; simpl; [done |].
    intros [= ->]. right. by apply IH.
  - intros [= ->]. by left.
Qed.

Lemma sorted_Raise_inv {A : Type} (key : A → result string) (l : list A)
    (rev : bool) (e : exception) :
  sorted l key rev = Raise e → Exists (λ x, key x = Raise e) l.
Proof.
  unfold sorted.
  destruct (mapM _ l) as [dl|e'] eqn:Hm; simpl; [done |].
  intros [= ->]. apply mapM_Raise_inv in Hm.
  eapply Exists_impl; [exact Hm |]. intros x. simpl.
  destruct (key x) as [k|e']; simpl; [done | by intros [= ->]].
Qed.

Lemma sort_key_Raise_inv (f : string) (p : post) (e : exception) :
  f ∈ valid_sort_fields → sort_key f p = Raise e →
  e = AttributeError ∧ str_field f p = None.
Proof.
  unfold valid_sort_fields. rewrite !elem_of_cons, elem_of_nil.
  intros [->|[->|[]]]; unfold str_field, sort_key, post_get; simpl;
    destruct p as [i [] []]; simpl; intros; by simplify_eq.
Qed.

(** X1.  List-with-sort raises exactly when both parameters pass validation,
    the sort field is given and some stored post holds a non-string in it;
    the exception is then the AttributeError of [.lower()], never another
    one.  Without a sort field, or with a parameter that fails validation,
    a collection of any content is answered without an exception. *)
Theorem get_posts_raises_iff
    (sort direction : option string) (POSTS : list post) (e : exception) :
  get_posts sort direction POSTS = Raise e ↔
  e = AttributeError ∧
  ∃ f, sort = Some f ∧ f ∈ valid_sort_fields ∧
       lower (default "asc" direction) ∈ ["asc"; "desc"] ∧
       Exists (λ p, str_field f p = None) POSTS.
Proof.
  split.
  - unfold get_posts.
    destruct (list_in (lower (default "asc" direction)) ["asc"; "desc"]) eqn:Hd.
    2:{ destruct sort as [f|]; [|done].
        by destruct (str_truthy f), (list_in f valid_sort_fields). }
    destruct sort as [f|]; [|done].
    destruct (str_truthy f) eqn:Ht; [|done].
    destruct (list_in f valid_sort_fields) eqn:Hin; [|done]. simpl.
    apply list_in_spec in Hin, Hd.
    destruct (sorted POSTS (sort_key f) _) as [out|e'] eqn:Hs; simpl; [done |].
    intros [= ->]. apply sorted_Raise_inv in Hs.
    assert (e = AttributeError) as ->.
    { apply Exists_exists in Hs as (p & _ & Hp).
      by apply sort_key_Raise_inv in Hp as [-> _]. }
    split; [done |]. exists f. split_and!; [done.. |].
    eapply Exists_impl; [exact Hs |]. intros p Hp.
    by apply sort_key_Raise_inv in Hp as [_ ?].
  - intros (-> & f & -> & Hf & Hd & Hex). by apply get_posts_non_string.
Qed.

(** ** Descending against ascending order *)

Section distinct_keys.
Context {A : Type}.
Implicit Types (l : list (string * A)).

Lemma filter_key_distinct (k : string) l :
  NoDup l.*1 → reverse (filter (λ y, y.1 = k) l) = filter (λ y, y.1 = k) l.
Proof.
  induction l as [|x l IH]; [done |].
  rewrite fmap_cons, NoDup_cons, filter_cons. intros [Hx Hl].
  case_decide as Hk; [|auto].
  assert (filter (λ y, y.1 = k) l = []) as ->; [|done].
  apply elem_of_nil_inv. intros y [Hy Hin]%list_elem_of_filter.
  apply Hx. rewrite Hk, <- Hy. by apply list_elem_of_fmap_2.
Qed.

Lemma stable_sort_reverse_distinct l :
  NoDup l.*1 → stable_sort (reverse l) = stable_sort l.
Proof.
  intros Hnd. apply stable_sort_unique; [apply stable_sort_sorted |].
  intros k. by rewrite stable_sort_filter, filter_reverse, filter_key_distinct.
Qed.

End distinct_keys.

(** X2.  When the posts hold ASCII strings in the sort field that differ
    pairwise even when case is ignored, the descending listing is the ascending
    listing reversed.  (With equal keys it is not: posts of equal key keep
    their storage order in both directions.) *)
Theorem get_posts_desc_reverses_asc (f : string) (POSTS : list post) :
  f ∈ valid_sort_fields →
  Forall (ascii_str_field f) POSTS →
  NoDup ((λ p, lower <$> str_field f p) <$> POSTS) →
  ∃ asc,
    get_posts (Some f) (Some "asc") POSTS = Ok (JsonPosts asc, 200) ∧
    get_posts (Some f) (Some "desc") POSTS = Ok (JsonPosts (reverse asc), 200).
Proof.
  intros Hf Hascii Hnd.
  assert (Forall (λ p, is_Some (str_field f p)) POSTS) as Hty.
  { eapply Forall_impl; [exact Hascii |]. intros p (s & Hs & _). by exists s. }
  set (g := λ p, lower (default "" (str_field f p))).
  assert (Forall (λ p, sort_key f p = Ok (g p)) POSTS) as Hk.
  { eapply Forall_impl; [exact Hty |]. intros p [s Hs].
    unfold g. rewrite Hs. by apply sort_key_str. }
  assert (NoDup (decorate g <$> POSTS).*1) as Hnd'.
  { rewrite <- list_fmap_compose.
    apply (NoDup_fmap_1 Some). rewrite <- list_fmap_compose.
    erewrite list_fmap_ext; [exact Hnd |].
    intros i p Hp. simpl. unfold g.
    rewrite Forall_forall in Hty.
    by destruct (Hty p (list_elem_of_lookup_2 _ _ _ Hp)) as [s ->]. }
  exists (snd <$> sort_decorated false (decorate g <$> POSTS)). split.
  - rewrite get_posts_valid; [| done | by vm_compute; apply list_in_spec].
    by rewrite (sorted_Ok _ g).
  - rewrite get_posts_valid; [| done | by apply list_in_spec].
    rewrite (sorted_Ok _ g) by done. simpl mbind.
    change (String.eqb (lower (default "asc" (Some "desc"))) "desc") with true.
    by rewrite stable_sort_reverse_distinct, fmap_reverse.
Qed.

Lemma get_posts_desc_reverses_asc_witness :
  ∃ asc,
    get_posts (Some "title") (Some "asc") POSTS = Ok (JsonPosts asc, 200) ∧
    get_posts (Some "title") (Some "desc") POSTS = Ok (JsonPosts (reverse asc), 200).
Proof.
  apply (get_posts_desc_reverses_asc "title" POSTS).
  - unfold valid_sort_fields. apply elem_of_cons. by left.
  - unfold POSTS.
    repeat (apply Forall_cons_2; [eexists; split; reflexivity |]).
    apply Forall_nil_2.
  - apply (@bool_decide_unpack _ (NoDup_dec _)). by vm_compute.
Defined.

(** ** Search without a query *)

Lemma comprehension_all {A : Type} (cond : A → result bool) (l : list A) :
  Forall (λ x, cond x = Ok true) l → comprehension cond l = Ok l.
Proof.
  induction 1 as [|x l Hx _ IH]; [done |].
  simpl. rewrite Hx. simpl. by rewrite IH.
Qed.

(** X3.  A search whose title and content queries are each absent or empty
    answers 200 with the whole collection, whatever the posts hold: no
    field is examined, so non-string fields do not make it raise. *)
Theorem search_posts_no_query
    (title_arg content_arg : option string) (POSTS : list post) :
  title_arg = None ∨ title_arg = Some "" →
  content_arg = None ∨ content_arg = Some "" →
  search_posts title_arg content_arg POSTS = Ok (JsonPosts POSTS, 200).
Proof.
  intros Ht Hc. unfold search_posts.
  rewrite comprehension_all; [done |].
  apply Forall_true. intros p.
  by destruct Ht as [->| ->], Hc as [->| ->].
Qed.

Lemma search_posts_no_query_witness :
  search_posts (Some "") None [Post 7 (JInt 5) JNull] =
    Ok (JsonPosts [Post 7 (JInt 5) JNull], 200).
Proof. apply search_posts_no_query; [by right | by left]. Defined.

(** ** Create *)

(** X4.  Create never raises: the two dictionary look-ups that build the
    record are reached only after validation has found both keys.  It
    answers either 400, leaving the collection as it is, or 201, making the
    collection one post longer. *)
Theorem add_post_never_raises (data : gmap string json) (POSTS : list post) :
  ∃ body status s',
    add_post data POSTS = Ok ((body, status), s') ∧
    ((status = 400 ∧ s' = POSTS) ∨
     (status = 201 ∧ length s' = S (length POSTS))).
Proof.
  destruct (add_post_cases data POSTS) as [->|(t & c & ->)].
  - do 3 eexists. split; [reflexivity |]. by left.
  - do 3 eexists. split; [reflexivity |]. right.
    split; [done |]. rewrite length_app. simpl. lia.
Qed.

Lemma missing_fields_insert (data : gmap string json) (k : string) (v : json) :
  k ≠ "title" → k ≠ "content" → missing_fields (<[k := v]> data) = missing_fields data.
Proof.
  intros Ht Hc. unfold missing_fields. simpl.
  by rewrite !lookup_insert_ne.
Qed.

(** X5.  Create reads only the title and the content of the body: a further
    key, such as an id chosen by the client, changes neither the answer nor
    the stored record. *)
Theorem add_post_ignores_other_keys
    (data : gmap string json) (k : string) (v : json) (POSTS : list post) :
  k ≠ "title" → k ≠ "content" →
  add_post (<[k := v]> data) POSTS = add_post data POSTS.
Proof.
  intros Ht Hc. unfold add_post, dict_get.
  rewrite missing_fields_insert by done.
  by rewrite !lookup_insert_ne.
Qed.

Lemma add_post_ignores_other_keys_witness :
  add_post (<["id" := JInt 99]> {[ "title" := JStr "T"; "content" := JStr "C" ]}) POSTS
  = add_post {[ "title" := JStr "T"; "content" := JStr "C" ]} POSTS.
Proof. by apply add_post_ignores_other_keys. Defined.

(** ** Ids over time *)

Lemma increasing_ids_below_next (s : list post) :
  increasing_ids s →
  Forall (λ p, id p < match last s with Some q => id q + 1 | None => 1 end) s.
Proof.
  intros Hs. apply Forall_forall. intros p Hp.
  destruct (last s) as [q|] eqn:Hlast.
  - pose proof (increasing_ids_last s q Hs Hlast p Hp). lia.
  - apply last_None in Hlast. rewrite Hlast in Hp. by apply elem_of_nil in Hp.
Qed.

Lemma handle_positive_ids (r : request) (s : list post) :
  Forall (λ p, 1 ≤ id p) s → Forall (λ p, 1 ≤ id p) (handle r s).2.
Proof.
  intros Hs. destruct r as [sort dir|tq cq|data|post_id|post_id data]; simpl.
  - by destruct (get_posts sort dir s).
  - by destruct (search_posts tq cq s).
  - destruct (add_post_cases data s) as [->|(t & c & ->)]; [done |]. simpl.
    apply Forall_app. split; [done |]. constructor; [|done]. simpl.
    destruct (last s) as [q|] eqn:Hlast; [|lia].
    apply last_Some_elem_of in Hlast. rewrite Forall_forall in Hs.
    specialize (Hs q Hlast). lia.
  - unfold delete_post. destruct (next_post post_id s); [|done]. simpl.
    apply Forall_forall. intros x [_ Hx]%list_elem_of_filter.
    rewrite Forall_forall in Hs. auto.
  - apply (Forall_fmap id (λ i, 1 ≤ i)).
    rewrite update_post_ids. by apply Forall_fmap.
Qed.

Lemma run_positive_ids (rs : list request) : Forall (λ p, 1 ≤ id p) (run rs POSTS).
Proof.
  induction rs as [|r rs IH] using rev_ind.
  - simpl. repeat constructor; simpl; lia.
  - rewrite run_snoc. by apply handle_positive_ids.
Qed.

(** X6.  After every sequence of requests run from the two initial posts,
    every stored id is at least 1, and so is the id that the next create
    would assign. *)
Theorem ids_positive (rs : list request) :
  Forall (λ p, 1 ≤ id p) (run rs POSTS) ∧
  1 ≤ match last (run rs POSTS) with Some q => id q + 1 | None => 1 end.
Proof.
  pose proof (run_positive_ids rs) as Hpos. split; [done |].
  destruct (last (run rs POSTS)) as [q|] eqn:Hlast; [|lia].
  apply last_Some_elem_of in Hlast. rewrite Forall_forall in Hpos.
  specialize (Hpos q Hlast). lia.
Qed.

Lemma delete_post_found (post_id : Z) (s : list post) (p : post) :
  p ∈ s → id p = post_id →
  delete_post post_id s =
    ((JsonMessage ("Post with id " +:+ py_str post_id +:+ " has been deleted successfully."),
      200), filter (λ q, id q ≠ post_id) s).
Proof.
  intros Hp Hid. unfold delete_post.
  destruct (next_post post_id s) as [[i q]|] eqn:E; [done |].
  exfalso. by eapply next_post_None.
Qed.

(** X7.  In every state of the service, a create that passes validation
    followed by the delete of the id it returned brings the collection back
    to what it was; the delete is answered 200. *)
Theorem create_then_delete_restores
    (rs : list request) (data : gmap string json) (t c : json) :
  data !! "title" = Some t → data !! "content" = Some c →
  truthy t = true → truthy c = true →
  ∃ p,
    handle (POST_posts data) (run rs POSTS) = ((JsonPost p, 201), run rs POSTS ++ [p]) ∧
    handle (DELETE_post (id p)) (run rs POSTS ++ [p]) =
      ((JsonMessage ("Post with id " +:+ py_str (id p) +:+ " has been deleted successfully."),
        200), run rs POSTS).
Proof.
  intros Ht Hc Htt Hct.
  pose proof (increasing_ids_below_next _ (run_increasing_ids rs)) as Hlt.
  set (s := run rs POSTS) in *.
  set (p := Post (match last s with Some q => id q + 1 | None => 1 end) t c).
  exists p. split.
  - simpl. by rewrite (add_post_accepts data s t c).
  - unfold handle. rewrite (delete_post_found (id p) (s ++ [p]) p);
      [| apply elem_of_app; right; by left | done].
    do 2 f_equal.
    rewrite filter_app, filter_cons_False, filter_nil, app_nil_r by (intros ?; done).
    apply filter_Forall_id. eapply Forall_impl; [exact Hlt |].
    intros q Hq. unfold p. simpl in *. lia.
Qed.

Lemma create_then_delete_restores_witness :
  ∃ p,
    handle (POST_posts {[ "title" := JStr "T"; "content" := JStr "C" ]}) (run [] POSTS)
      = ((JsonPost p, 201), run [] POSTS ++ [p]) ∧
    handle (DELETE_post (id p)) (run [] POSTS ++ [p]) =
      ((JsonMessage ("Post with id " +:+ py_str (id p) +:+ " has been deleted successfully."),
        200), run [] POSTS).
Proof.
  apply (create_then_delete_restores [] _ (JStr "T") (JStr "C")); by vm_compute.
Defined.

(** X8.  Ids are not fresh over time: when the last post of a state of the
    service is deleted, the next create that passes validation assigns an
    id that is not above the deleted one, so the id of a deleted post can
    be given to a new post. *)
Theorem deleted_last_id_reassigned
    (rs : list request) (q : post) (data : gmap string json) (t c : json) :
  last (run rs POSTS) = Some q →
  data !! "title" = Some t → data !! "content" = Some c →
  truthy t = true → truthy c = true →
  ∃ l p,
    run rs POSTS = l ++ [q] ∧
    (handle (DELETE_post (id q)) (run rs POSTS)).2 = l ∧
    handle (POST_posts data) l = ((JsonPost p, 201), l ++ [p]) ∧
    id p ≤ id q.
Proof.
  intros Hlast Ht Hc Htt Hct.
  pose proof (run_increasing_ids rs) as Hinc.
  pose proof (run_positive_ids rs) as Hpos.
  apply last_Some in Hlast as [l Hl]. rewrite Hl in *.
  assert (Forall (λ p, id p < id q) l) as Hlt.
  { apply Forall_forall. intros p Hp. unfold increasing_ids in Hinc.
    rewrite fmap_app in Hinc.
    eapply (StronglySorted_app_1_elem_of Z.lt); [exact Hinc | | by left].
    by apply list_elem_of_fmap_2. }
  exists l. eexists. split_and!.
  - done.
  - unfold handle. rewrite (delete_post_found (id q) (l ++ [q]) q);
      [| apply elem_of_app; right; by left | done].
    simpl. rewrite filter_app, filter_cons_False, filter_nil, app_nil_r by (intros ?; done).
    apply filter_Forall_id. eapply Forall_impl; [exact Hlt |].
    intros p Hp. simpl in *. lia.
  - simpl. by rewrite (add_post_accepts data l t c).
  - simpl. destruct (last l) as [q'|] eqn:Hl'.
    + apply last_Some_elem_of in Hl'. rewrite Forall_forall in Hlt.
      specialize (Hlt q' Hl'). lia.
    + apply Forall_app in Hpos as [_ Hq]. by apply Forall_inv in Hq.
Qed.

Lemma deleted_last_id_reassigned_witness :
  ∃ l p,
    run [] POSTS = l ++ [Post 2 (JStr "Second post") (JStr "This is the second post.")] ∧
    (handle (DELETE_post 2) (run [] POSTS)).2 = l ∧
    handle (POST_posts {[ "title" := JStr "T"; "content" := JStr "C" ]}) l
      = ((JsonPost p, 201), l ++ [p]) ∧
    id p ≤ 2.
Proof.
  apply (deleted_last_id_reassigned []
           (Post 2 (JStr "Second post") (JStr "This is the second post."))
           _ (JStr "T") (JStr "C")); by vm_compute.
Defined.

(** ** Delete on any collection *)

Lemma delete_post_state (post_id : Z) (s : list post) :
  (delete_post post_id s).2 = filter (λ p, id p ≠ post_id) s.
Proof.
  unfold delete_post. destruct (next_post post_id s) as [[i p]|] eqn:E; [done |].
  simpl. symmetry. apply filter_Forall_id, Forall_forall.
  by apply next_post_None.
Qed.


(** X10.  Once an id has been deleted, a further delete of it and an update
    of it are both answered 404 and leave the collection as it is. *)
Theorem delete_post_then_not_found
    (post_id : Z) (data : gmap string json) (s : list post) :
  let s' := (delete_post post_id s).2 in
  delete_post post_id s' =
    ((JsonError ("Post with id " +:+ py_str post_id +:+ " not found."), 404), s') ∧
  update_post post_id data s' =
    ((JsonError ("Post with id " +:+ py_str post_id +:+ " not found."), 404), s').
Proof.
  simpl.
  assert (next_post post_id (delete_post post_id s).2 = None) as Hnone.
  { apply next_post_None. intros p. rewrite delete_post_state.
    by intros [? _]%list_elem_of_filter. }
  unfold delete_post at 1, update_post. by rewrite Hnone.
Qed.

(** X11.  Deletes of two ids leave the same collection in either order. *)
Theorem delete_post_commutes (i j : Z) (s : list post) :
  (delete_post i (delete_post j s).2).2 = (delete_post j (delete_post i s).2).2.
Proof.
  rewrite !delete_post_state, !list_filter_filter.
  apply list_filter_iff. tauto.
Qed.

(** ** Update on any collection *)

(** X12.  An update is idempotent: sending the same update again gives the
    same answer and leaves the collection as the first one left it. *)
Theorem update_post_idempotent
    (post_id : Z) (data : gmap string json) (s : list post) :
  update_post post_id data (update_post post_id data s).2 = update_post post_id data s.
Proof.
  unfold update_post.
  destruct (next_post post_id s) as [[i p]|] eqn:E; simpl; [|by rewrite E].
  apply list_find_Some in E as (Hi & Hp & Hfirst).
  pose proof (lookup_lt_Some _ _ _ Hi) as Hlt.
  match goal with
  | |- context [next_post post_id (<[i := ?x]> s)] =>
      assert (next_post post_id (<[i := x]> s) = Some (i, x)) as ->
  end.
  { apply list_find_Some. split_and!.
    - by apply list_lookup_insert_eq.
    - done.
    - intros j y Hj Hji. rewrite list_lookup_insert_ne in Hj by lia. eauto. }
  simpl. destruct (data !! "title"), (data !! "content"); simpl;
    (f_equal; apply list_insert_id; by apply list_lookup_insert_eq).
Qed.

(** ** What create guarantees and update does not *)

Lemma handle_truthy_fields (r : request) (s : list post) :
  is_update r = false → Forall truthy_fields s → Forall truthy_fields (handle r s).2.
Proof.
  intros Hr Hs. destruct r as [sort dir|tq cq|data|post_id|post_id data]; simpl.
  - by destruct (get_posts sort dir s).
  - by destruct (search_posts tq cq s).
  - destruct (missing_fields data) as [|f fields] eqn:E.
    + apply missing_fields_nil in E as (t & c & Ht & Hc & Htt & Hct).
      rewrite (add_post_accepts data s t c) by done. simpl.
      apply Forall_app. split; [done |]. by repeat constructor.
    + rewrite add_post_rejects; [done | by rewrite E].
  - rewrite delete_post_state. apply Forall_forall.
    intros x [_ Hx]%list_elem_of_filter. rewrite Forall_forall in Hs. auto.
  - done.
Qed.

(** X13.  As long as no update is sent, every stored post has a title and a
    content that are not false: create stores a field only after testing
    it.  Update stores what the body supplies without a test: one update
    with an empty title ends the guarantee. *)
Theorem truthy_fields_without_update :
  (∀ rs : list request,
     Forall (λ r, is_update r = false) rs → Forall truthy_fields (run rs POSTS)) ∧
  ¬ Forall truthy_fields (run [PUT_post 1 {[ "title" := JStr "" ]}] POSTS).
Proof.
  split.
  - induction rs as [|r rs IH] using rev_ind; intros Hrs.
    + repeat constructor.
    + apply Forall_app in Hrs as [Hrs Hr%Forall_inv].
      rewrite run_snoc. apply handle_truthy_fields; auto.
  - intros [[H _] _]%Forall_cons. by vm_compute in H.
Qed.

Lemma truthy_fields_without_update_witness :
  Forall truthy_fields
    (run [POST_posts {[ "title" := JStr "T"; "content" := JStr "C" ]}; DELETE_post 1] POSTS).
Proof.
  apply (proj1 truthy_fields_without_update). by repeat constructor.
Defined.

(** ** Ties in the listing *)

(** X14.  When all posts hold, case ignored, the same string in the sort
    field, the sorted listing is the collection in storage order, for
    direction desc as for asc: a descending sort does not reverse ties. *)
Theorem get_posts_equal_keys_keep_order
    (f k : string) (direction : option string) (POSTS : list post) :
  f ∈ valid_sort_fields →
  lower (default "asc" direction) ∈ ["asc"; "desc"] →
  Forall (has_ci_key f k) POSTS →
  get_posts (Some f) direction POSTS = Ok (JsonPosts POSTS, 200).
Proof.
  intros Hf Hd Hk.
  set (g := λ p, lower (default "" (str_field f p))).
  assert (Forall (λ p, sort_key f p = Ok (g p) ∧ g p = k) POSTS) as Hg.
  { eapply Forall_impl; [exact Hk |]. intros p Hp.
    unfold has_ci_key in Hp. unfold g.
    destruct (str_field f p) as [s|] eqn:Hs; [|done].
    split; [by apply sort_key_str | by injection Hp]. }
  rewrite get_posts_valid by done.
  rewrite (sorted_Ok _ g) by (eapply Forall_impl; [exact Hg |]; by intros p [? _]).
  simpl. do 3 f_equal.
  set (rev := String.eqb _ _).
  set (out := snd <$> sort_decorated rev (decorate g <$> POSTS)).
  assert (Forall (λ p, g p = k) POSTS) as Hall
    by (eapply Forall_impl; [exact Hg |]; by intros p [_ ?]).
  assert (filter (λ p, g p = k) out = filter (λ p, g p = k) POSTS) as H1
    by apply undecorate_stable.
  assert (filter (λ p, g p = k) out = out) as H2.
  { apply filter_Forall_id. unfold out. by rewrite undecorate_perm. }
  rewrite (filter_Forall_id _ POSTS) in H1 by done. congruence.
Qed.

Lemma get_posts_equal_keys_keep_order_witness :
  get_posts (Some "title") (Some "desc")
    [Post 1 (JStr "Same") (JStr "a"); Post 2 (JStr "SAME") (JStr "b")]
  = Ok (JsonPosts [Post 1 (JStr "Same") (JStr "a"); Post 2 (JStr "SAME") (JStr "b")], 200).
Proof.
  apply (get_posts_equal_keys_keep_order "title" "same").
  - unfold valid_sort_fields. apply elem_of_cons. by left.
  - apply elem_of_cons. right. apply elem_of_cons. by left.
  - by repeat constructor.
Defined.

(** ** Undoing an update *)

Lemma update_post_split
    (post_id : Z) (data : gmap string json) (l1 l2 : list post) (p : post) :
  id p = post_id → (∀ q, q ∈ l1 → id q ≠ post_id) →
  update_post post_id data (l1 ++ p :: l2) =
    let p' := Post (id p) (default (title p) (data !! "title"))
                   (default (content p) (data !! "content")) in
    ((JsonPost p', 200), l1 ++ p' :: l2).
Proof.
  intros Hp Hl1. unfold update_post.
  assert (next_post post_id (l1 ++ p :: l2) = Some (length l1, p)) as ->.
  { apply list_find_Some. split_and!.
    - by rewrite list_lookup_middle.
    - done.
    - intros j y Hj Hlt. rewrite lookup_app_l in Hj by done.
      apply Hl1. by eapply list_elem_of_lookup_2. }
  simpl. f_equal.
  rewrite <- (Nat.add_0_r (length l1)). by rewrite insert_app_r.
Qed.

(** X15.  An update of the title can be undone: updating the first post of
    an id with a new title and then with the title it had gives back the
    collection as it was, on any collection. *)
Theorem update_post_title_undo
    (post_id : Z) (v : json) (l1 l2 : list post) (p : post) :
  id p = post_id → (∀ q, q ∈ l1 → id q ≠ post_id) →
  let s := l1 ++ p :: l2 in
  let s1 := (update_post post_id {[ "title" := v ]} s).2 in
  update_post post_id {[ "title" := title p ]} s1 = ((JsonPost p, 200), s).
Proof.
  intros Hp Hl1. simpl.
  rewrite (update_post_split post_id {[ "title" := v ]} l1 l2 p) by done. simpl.
  rewrite update_post_split by done. simpl.
  rewrite !lookup_singleton_eq, !lookup_singleton_ne by done. simpl.
  by destruct p.
Qed.

Lemma update_post_title_undo_witness :
  update_post 1 {[ "title" := JStr "First post" ]}
    (update_post 1 {[ "title" := JStr "New" ]} POSTS).2
  = ((JsonPost (Post 1 (JStr "First post") (JStr "This is the first post.")), 200), POSTS).
Proof.
  apply (update_post_title_undo 1 (JStr "New") []
           [Post 2 (JStr "Second post") (JStr "This is the second post.")]
           (Post 1 (JStr "First post") (JStr "This is the first post."))).
  - reflexivity.
  - intros q Hq. by apply elem_of_nil in Hq.
Defined.
